(** * NoteParser: the parse / cache / search core of vscode-markdown-notes

    A shallow embedding of [src/NoteParser.ts] and the properties of it that
    the specification states.

    Conventions.
    - A JavaScript string is a [string]; offsets and line numbers are [nat].
    - A mutable object is a record value; a method that mutates [this]
      returns the new value of [this].
    - [NoteParser._parsedFiles] is a [gmap string ParsedFile.t].  The only
      long-lived references to a [ParsedFile] are the ones the dictionary
      holds, so a reference is modelled by the key it is stored under, and a
      mutation through a reference by an update of the entry at that key:
      two references to one path see each other's mutations.
    - The collaborators that live outside [NoteParser.ts] (the enum
      [ContextWordType], the class [NoteWorkspace], the file system) are
      parameters: type classes for the first two, a [World] argument for the
      last.
    - An asynchronous operation is run until its callbacks have run, against
      one answer of the file system; the interleaving of two operations is
      not modelled. *)

From Stdlib Require Import Ascii.
From Stdlib Require String.
From stdpp Require Import base option list strings gmap sorting.

Set Default Proof Using "Type".

(** ** JavaScript primitives used by the source *)

Module Js.

Definition LF : ascii := "010"%char.
Definition CR : ascii := "013"%char.

(** [ToBoolean] on a [string | undefined]: [undefined] and [''] are falsy. *)
Definition truthy_string (s : option string) : bool :=
  match s with
  | None => false
  | Some "" => false
  | Some (String _ _) => true
  end.

(** [x || d] on a [number | undefined]: [undefined] and [0] both give [d]
    when [d] is [0]. *)
Definition or_zero (x : option nat) : nat :=
  match x with
  | None => 0
  | Some n => n
  end.

Definition push_front (c : ascii) (ls : list string) : list string :=
  match ls with
  | [] => [String c ""]
  | l :: ls' => String c l :: ls'
  end.

(** [s.split(/\r?\n/)]: the separator is searched leftmost-first, and at a
    carriage return the optional [\r] is taken when a line feed follows. *)
Fixpoint split_newlines (s : string) : list string :=
  match s with
  | "" => [""]
  | String c rest =>
      if Ascii.eqb c LF then "" :: split_newlines rest
      else
        match rest with
        | String c' rest' =>
            if Ascii.eqb c CR && Ascii.eqb c' LF
            then "" :: split_newlines rest'
            else push_front c (split_newlines rest)
        | "" => push_front c (split_newlines rest)
        end
  end.

(** One element of the iterator [line.matchAll(rx)]: [match.index] and
    [match[0]]. *)
Record RegExpMatchArray := {
  index : option nat;
  matched : string
}.

(** A global regular expression, represented by what [matchAll] yields on a
    line. *)
Definition RegExp := string → list RegExpMatchArray.

Definition matchAll (line : string) (rx : RegExp) : list RegExpMatchArray :=
  rx line.

(** [Set<string>]: iteration order is insertion order, [add] of a member
    leaves the set as it is. *)
Module StringSet.
Definition t := list string.
Definition empty : t := [].
Definition add (s : t) (x : string) : t :=
  if decide (x ∈ s) then s else s ++ [x].
(** [new Set(iterable)] *)
Definition from (l : list string) : t := foldl add empty l.
(** [Array.from(set)] *)
Definition to_array (s : t) : list string := s.
End StringSet.

(** How a promise settles. *)
Inductive Settled (E A : Type) :=
  | Resolved (a : A)
  | Rejected (e : E).
Global Arguments Resolved {E A} a.
Global Arguments Rejected {E A} e.

End Js.

(** ** Collaborators declared outside [NoteParser.ts] *)

(** [enum ContextWordType] of [./ContextWord]: the source compares members
    with [==], lists them with [includes], and, in [search], uses one as a
    condition, so the model needs equality and [ToBoolean] on members. *)
Module ContextWordType.
Class Enum (t : Type) := {
  eq_dec : EqDecision t;
  Tag : t;
  WikiLink : t;
  toBoolean : t → bool
}.
#[global] Existing Instance eq_dec.
End ContextWordType.

(** The static members of [NoteWorkspace] that the parser calls. *)
Module NoteWorkspace.
Class Statics := {
  rxTagNoAnchors : Js.RegExp;
  rxWikiLink : Js.RegExp;
  noteNamesFuzzyMatch : string → string → bool
}.
End NoteWorkspace.

(** The error object that [fs.readFile] hands to its callback. *)
Record ErrnoException := { code : string }.

(** What the file system answers during one operation: the files that
    [NoteWorkspace.noteFiles()] enumerates and what [fs.readFile] yields. *)
Record World := {
  noteFiles : list string;
  fs_readFile : string → ErrnoException + string
}.

(** ** Value types *)

Record RawPosition := { line : nat; character : nat }.
Record RawRange := { r_start : RawPosition; r_end : RawPosition }.

Module vscode.
Definition isBefore (a b : RawPosition) : bool :=
  (line a <? line b) || ((line a =? line b) && (character a <? character b)).

(** [new vscode.Range(start, end)] orders its two positions. *)
Definition Range (s e : RawPosition) : RawRange :=
  if isBefore e s then {| r_start := e; r_end := s |}
  else {| r_start := s; r_end := e |}.

Record Location := { uri : string; range : RawRange }.
End vscode.

Record ContextWord {K : Type} := {
  type : K;
  word : string;
  hasExtension : bool;
  cw_range : option RawRange
}.
Global Arguments ContextWord K : clear implicits.

Definition ContextWord_set_type {K} (k : K) (cw : ContextWord K) : ContextWord K :=
  {| type := k; word := word cw; hasExtension := hasExtension cw;
     cw_range := cw_range cw |}.

(** ** class RefCandidate *)

Module RefCandidate.
Section RefCandidate.
Context {K : Type} `{!ContextWordType.Enum K} `{!NoteWorkspace.Statics}.

Record t := {
  rawText : string;
  range : RawRange;
  contextWordType : K
}.

Definition fromMatch (lineNum : nat) (m : Js.RegExpMatchArray) (cwType : K) : t :=
  let s := Js.or_zero (Js.index m) in
  let e := s + String.length (Js.matched m) in
  let r := {| r_start := {| line := lineNum; character := s |};
              r_end := {| line := lineNum; character := e |} |} in
  {| rawText := Js.matched m; range := r; contextWordType := cwType |}.

Definition matchesContextWord (this : t) (contextWord : ContextWord K) : bool :=
  if negb (bool_decide (type contextWord = contextWordType this)) then false
  else if bool_decide (type contextWord = ContextWordType.Tag) then
    bool_decide (rawText this = "#" +:+ word contextWord)
  else if bool_decide (type contextWord = ContextWordType.WikiLink) then
    NoteWorkspace.noteNamesFuzzyMatch (rawText this) (word contextWord)
  else false.

End RefCandidate.
Global Arguments t K : clear implicits.
End RefCandidate.

(** ** class ParsedFile *)

Module ParsedFile.
Section ParsedFile.
Context {K : Type} `{!ContextWordType.Enum K} `{!NoteWorkspace.Statics}.

Record t := {
  fsPath : string;
  data : option string;
  refCandidates : list (RefCandidate.t K);
  _parsed : bool
}.

(** [new ParsedFile(fsPath)] *)
Definition new (path : string) : t :=
  {| fsPath := path; data := None; refCandidates := []; _parsed := false |}.

Definition set_data (d : option string) (this : t) : t :=
  {| fsPath := fsPath this; data := d;
     refCandidates := refCandidates this; _parsed := _parsed this |}.

Definition set_refCandidates (cs : list (RefCandidate.t K)) (this : t) : t :=
  {| fsPath := fsPath this; data := data this;
     refCandidates := cs; _parsed := _parsed this |}.

Definition set_parsed (b : bool) (this : t) : t :=
  {| fsPath := fsPath this; data := data this;
     refCandidates := refCandidates this; _parsed := b |}.

Definition push (c : RefCandidate.t K) (this : t) : t :=
  set_refCandidates (refCandidates this ++ [c]) this.

(** *** readFile

    The method has a synchronous part, which either returns a promise that
    is already resolved or hands a callback to [fs.readFile], and the
    callback, which runs when the file system answers. *)

Inductive Pending :=
  | Immediate                 (* resolved with [that], no I/O *)
  | AwaitRead (path : string) (* [readFile(that.fsPath, callback)] issued *).

Definition readFile_call (useCache : bool) (this : t) : t * Pending :=
  if useCache && Js.truthy_string (data this) then (this, Immediate)
  else
    let this := set_parsed false this in
    (this, AwaitRead (fsPath this)).

Definition readFile_callback
    (answer : ErrnoException + string) (this : t)
  : t * Js.Settled ErrnoException unit :=
  match answer with
  | inl err => (this, Js.Rejected err)
  | inr buffer => (set_data (Some buffer) this, Js.Resolved ())
  end.

(** The call together with the answer of the file system; the promise
    resolves with [that], whose value is the first component. *)
Definition readFile (w : World) (useCache : bool) (this : t)
  : t * Js.Settled ErrnoException unit :=
  match readFile_call useCache this with
  | (this, Immediate) => (this, Js.Resolved ())
  | (this, AwaitRead path) => readFile_callback (fs_readFile w path) this
  end.

(** *** parseData *)

(** [xs.map((x, i) => ...)] run for its effect on a state. *)
Fixpoint forEachIndexed {A St : Type}
    (f : A → nat → St → St) (i : nat) (xs : list A) (s : St) : St :=
  match xs with
  | [] => s
  | x :: xs' => forEachIndexed f (S i) xs' (f x i s)
  end.

Definition pushMatches (lineNum : nat) (cwType : K)
    (ms : list Js.RegExpMatchArray) (this : t) : t :=
  foldl (λ that m, push (RefCandidate.fromMatch lineNum m cwType) that) this ms.

Definition parseLine (ln : string) (lineNum : nat) (this : t) : t :=
  let this :=
    pushMatches lineNum ContextWordType.Tag
      (Js.matchAll ln NoteWorkspace.rxTagNoAnchors) this in
  pushMatches lineNum ContextWordType.WikiLink
    (Js.matchAll ln NoteWorkspace.rxWikiLink) this.

Definition parseData (useCache : bool) (this : t) : t :=
  match data this with
  | Some "" => this                 (* this.data === '' *)
  | None => this                    (* !this.data: console.debug *)
  | Some d =>
      if useCache && _parsed this then this
      else
        let this := set_refCandidates [] this in
        let lines := Js.split_newlines d in
        let this := forEachIndexed parseLine 0 lines this in
        set_parsed true this
  end.

Definition fromData (d : string) : t :=
  let pf := new "NO_PATH" in
  let pf := set_data (Some d) pf in
  parseData false pf.

(** *** Queries *)

(** [contextWord] is [ContextWord | null]; [!this.refCandidates] is false,
    the field always holding an array. *)
Definition _rawRangesForWord (this : t) (contextWord : option (ContextWord K))
  : list RawRange :=
  if bool_decide (data this = Some "") then []
  else if negb (Js.truthy_string (data this)) then []
  else
    match contextWord with
    | None => []
    | Some cw =>
        if negb (bool_decide
                   (type cw ∈ [ContextWordType.Tag; ContextWordType.WikiLink]))
        then []
        else
          map RefCandidate.range
            (List.filter (λ c, RefCandidate.matchesContextWord c cw)
               (refCandidates this))
    end.

Definition vscodeRangesForWord (this : t) (contextWord : option (ContextWord K))
  : list RawRange :=
  map (λ r, vscode.Range (r_start r) (r_end r))
    (_rawRangesForWord this contextWord).

Definition tagSet (this : t) : Js.StringSet.t :=
  foldl (λ _tagSet rc, Js.StringSet.add _tagSet (RefCandidate.rawText rc))
    Js.StringSet.empty
    (List.filter
       (λ rc, bool_decide (RefCandidate.contextWordType rc = ContextWordType.Tag))
       (refCandidates this)).

End ParsedFile.
Global Arguments t K : clear implicits.
End ParsedFile.

(** ** class NoteParser *)

Module NoteParser.
Section NoteParser.
Context {K : Type} `{!ContextWordType.Enum K} `{!NoteWorkspace.Statics}.

(** [interface Dictionary<T>] at [T = ParsedFile] *)
Abbreviation Dictionary := (gmap string (ParsedFile.t K)).

(** Computations that read and update [NoteParser._parsedFiles]. *)
Definition M (A : Type) : Type := Dictionary → Dictionary * A.

#[global] Instance M_ret : MRet M := λ A a files, (files, a).
#[global] Instance M_bind : MBind M :=
  λ A B k m files, let '(files', a) := m files in k a files'.

Definition get : M Dictionary := λ files, (files, files).
Definition modify (f : Dictionary → Dictionary) : M unit :=
  λ files, (f files, ()).

(** [xs.map(f)] for a callback [f] that reads or updates the dictionary. *)
Fixpoint Array_map {A B : Type} (f : A → M B) (xs : list A) : M (list B) :=
  match xs with
  | [] => mret []
  | x :: xs' =>
      y ← f x;
      ys ← Array_map f xs';
      mret (y :: ys)
  end.

(** The object a reference points to.  Every reference held below was
    returned by [parsedFileFor], which stored the object under that key. *)
Definition deref (ref : string) (files : Dictionary) : ParsedFile.t K :=
  default (ParsedFile.new ref) (files !! ref).

(** Call a mutating method on the object behind a reference. *)
Definition invoke {A : Type} (ref : string)
    (method : ParsedFile.t K → ParsedFile.t K * A) : M A :=
  λ files,
    let '(pf, a) := method (deref ref files) in (<[ref := pf]> files, a).

(** [Promise.all]: resolved with every value, or rejected with the
    rejection met first in list order.  (JavaScript rejects with the
    rejection that settles first in time; the order in which the reads
    complete is not modelled, so which error of several is reported is a
    choice of the model.) *)
Fixpoint Promise_all {E A : Type} (ps : list (Js.Settled E A))
  : Js.Settled E (list A) :=
  match ps with
  | [] => Js.Resolved []
  | Js.Rejected e :: _ => Js.Rejected e
  | Js.Resolved a :: ps' =>
      match Promise_all ps' with
      | Js.Resolved l => Js.Resolved (a :: l)
      | Js.Rejected e => Js.Rejected e
      end
  end.

Definition parsedFileFor (fsPath : string) : M string :=
  λ files,
    let pf :=
      match files !! fsPath with
      | Some pf => pf
      | None => ParsedFile.new fsPath
      end in
    (<[fsPath := pf]> files, fsPath).

(** The executor of the promise a [readFile] call returned, run to its
    settlement. *)
Definition settle (w : World) (ref : string) (p : ParsedFile.Pending)
  : M (Js.Settled ErrnoException unit) :=
  match p with
  | ParsedFile.Immediate => mret (Js.Resolved ())
  | ParsedFile.AwaitRead path =>
      invoke ref (ParsedFile.readFile_callback (fs_readFile w path))
  end.

(** Every [readFile] call is made before any file system callback runs; each
    promise resolves with the reference it was called on; [parseData] runs
    only once every read has succeeded. *)
Definition parsedFilesForWorkspace (w : World) (useCache : bool)
  : M (Js.Settled ErrnoException (list string)) :=
  let files := noteFiles w in
  parsedFiles ← Array_map parsedFileFor files;
  promises ← Array_map (λ pf, invoke pf (ParsedFile.readFile_call useCache)) parsedFiles;
  settled ← Array_map (λ '(pf, p), settle w pf p) (zip parsedFiles promises);
  match Promise_all settled with
  | Js.Rejected err => mret (Js.Rejected err)
  | Js.Resolved _ =>
      Array_map (λ pf, invoke pf (λ this, (ParsedFile.parseData useCache this, ())))
        parsedFiles;;
      mret (Js.Resolved parsedFiles)
  end.

Definition distinctTags (w : World)
  : M (Js.Settled ErrnoException (list string)) :=
  let useCache := true in
  r ← parsedFilesForWorkspace w useCache;
  match r with
  | Js.Rejected err => mret (Js.Rejected err)
  | Js.Resolved pfs =>
      files ← get;
      let _tags :=
        foldl (λ _tags pf,
                 _tags ++ Js.StringSet.to_array (ParsedFile.tagSet (deref pf files)))
          [] pfs in
      mret (Js.Resolved (Js.StringSet.to_array (Js.StringSet.from _tags)))
  end.

(** The part of [search] after the branch on the kind.  The local [query]
    is computed by the source and never read. *)
Definition search_locations (w : World) (contextWord : ContextWord K)
  : M (Js.Settled ErrnoException (list vscode.Location)) :=
  let useCache := true in
  r ← parsedFilesForWorkspace w useCache;
  match r with
  | Js.Rejected err => mret (Js.Rejected err)
  | Js.Resolved parsedFiles =>
      files ← get;
      let locations :=
        foldl (λ locations ref,
                 let pf := deref ref files in
                 let ranges := ParsedFile.vscodeRangesForWord pf (Some contextWord) in
                 foldl (λ locations r,
                          locations ++
                            [ {| vscode.uri := ParsedFile.fsPath pf;
                                 vscode.range := r |} ])
                   locations ranges)
          [] parsedFiles in
      mret (Js.Resolved locations)
  end.

(** [search] returns its promise; the first component is the caller's
    [contextWord] object after the call. *)
Definition search (w : World) (contextWord : ContextWord K)
  : M (ContextWord K * Js.Settled ErrnoException (list vscode.Location)) :=
  if bool_decide (type contextWord = ContextWordType.Tag) then
    r ← search_locations w contextWord;
    mret (contextWord, r)
  else
    (* [(contextWord.type = ContextWordType.WikiLink)]: an assignment, whose
       value is the condition *)
    let contextWord := ContextWord_set_type ContextWordType.WikiLink contextWord in
    if ContextWordType.toBoolean (type contextWord) then
      r ← search_locations w contextWord;
      mret (contextWord, r)
    else
      mret (contextWord, Js.Resolved []).

Definition searchBacklinksFor (w : World) (fileBasename : string)
  : M (Js.Settled ErrnoException (list vscode.Location)) :=
  let cw := {| type := ContextWordType.WikiLink; hasExtension := true;
               word := fileBasename; cw_range := None |} in
  r ← search w cw;
  mret r.2.

(** [updateCacheFor] does not wait for the promise; the state is the one
    reached when its callbacks have run. *)
Definition updateCacheFor (w : World) (fsPath : string) : M unit :=
  pf ← parsedFileFor fsPath;
  p ← invoke pf (ParsedFile.readFile_call false);
  r ← settle w pf p;
  match r with
  | Js.Rejected _ => mret ()
  | Js.Resolved _ =>
      invoke pf (λ this, (ParsedFile.parseData false this, ()));;
      modify (λ files, <[fsPath := deref pf files]> files)
  end.

Definition clearCacheFor (fsPath : string) : M unit :=
  modify (delete fsPath).

Definition hydrateCache (w : World)
  : M (Js.Settled ErrnoException (list string)) :=
  let useCache := false in
  parsedFilesForWorkspace w useCache.

(** [step] touches nothing but the object behind [ref], on which it runs
    [method]; it removes no entry. *)
Definition acts_on {A : Type} (ref : string)
    (method : ParsedFile.t K → ParsedFile.t K * A) (step : M A) : Prop :=
  ∀ files files' a,
    step files = (files', a) →
    deref ref files' = (method (deref ref files)).1
    ∧ a = (method (deref ref files)).2
    ∧ (∀ q, q ≠ ref → files' !! q = files !! q)
    ∧ (∀ q, is_Some (files !! q) → is_Some (files' !! q)).

End NoteParser.
End NoteParser.

(** ** A concrete configuration

    Synthetic collaborators on which the definitions above run: an enum with
    a third member, two patterns and a note-name comparison. *)

Module Fixture.

(** Modelled from the spec: [ContextWord.ts] is not under src/.  The spec
    names the kinds Tag and WikiLink and speaks of queries of any other
    kind; [Null] stands for such a kind.  The members of a TypeScript numeric
    enum are numbered from 0 in the order declared, so the first one is the
    only falsy member. *)
Inductive Kind := Null | WikiLink | Tag.

Definition Kind_value (k : Kind) : nat :=
  match k with
  | Null => 0
  | WikiLink => 1
  | Tag => 2
  end.

#[export] Instance Kind_eq_dec : EqDecision Kind.
Proof. solve_decision. Defined.

#[export] Instance Kind_enum : ContextWordType.Enum Kind := {|
  ContextWordType.eq_dec := Kind_eq_dec;
  ContextWordType.Tag := Tag;
  ContextWordType.WikiLink := WikiLink;
  ContextWordType.toBoolean k := negb (Kind_value k =? 0)
|}.

(** Modelled from the spec: [NoteWorkspace.ts] is not under src/.  The two
    patterns and the note-name comparison are configuration; a tag is a
    hashtag such as [#project], a wiki-link a double-bracket reference such
    as [[[Note Name]]], and two note names are compared without wrapping
    brackets, directories and the [.md] extension. *)
Definition is_word (c : ascii) : bool :=
  let n := nat_of_ascii c in
  ((48 <=? n) && (n <=? 57)) || ((65 <=? n) && (n <=? 90))
  || ((97 <=? n) && (n <=? 122)) || (n =? 95) || (n =? 45).

Definition snoc (s : string) (c : ascii) : string := s +:+ String c "".

Definition emit_tag (cur : option (nat * string)) : list Js.RegExpMatchArray :=
  match cur with
  | Some (st, txt) =>
      if 1 <? String.length txt
      then [ {| Js.index := Some st; Js.matched := txt |} ]
      else []
  | None => []
  end.

(** The matches of [#[A-Za-z0-9_-]+] on the rest of a line; [cur] is the
    match being read. *)
Fixpoint scan_tags (s : string) (pos : nat) (cur : option (nat * string))
  : list Js.RegExpMatchArray :=
  match s with
  | "" => emit_tag cur
  | String c rest =>
      match cur with
      | Some (st, txt) =>
          if is_word c then scan_tags rest (S pos) (Some (st, snoc txt c))
          else
            emit_tag cur ++
            scan_tags rest (S pos)
              (if Ascii.eqb c "#" then Some (pos, "#") else None)
      | None =>
          scan_tags rest (S pos)
            (if Ascii.eqb c "#" then Some (pos, "#") else None)
      end
  end.

Inductive WikiState :=
  | Outside
  | Open1 (st : nat)
  | Inside (st : nat) (txt : string) (nonempty : bool)
  | Close1 (st : nat) (txt : string).

Definition wiki_restart (c : ascii) (pos : nat) : WikiState :=
  if Ascii.eqb c "[" then Open1 pos else Outside.

(** The matches of [\[\[[^\]]+\]\]] on the rest of a line. *)
Fixpoint scan_wiki (s : string) (pos : nat) (q : WikiState)
  : list Js.RegExpMatchArray :=
  match s with
  | "" => []
  | String c rest =>
      match q with
      | Outside => scan_wiki rest (S pos) (wiki_restart c pos)
      | Open1 st =>
          if Ascii.eqb c "[" then scan_wiki rest (S pos) (Inside st "[[" false)
          else scan_wiki rest (S pos) Outside
      | Inside st txt nonempty =>
          if Ascii.eqb c "]" then
            if nonempty then scan_wiki rest (S pos) (Close1 st (snoc txt c))
            else scan_wiki rest (S pos) Outside
          else scan_wiki rest (S pos) (Inside st (snoc txt c) true)
      | Close1 st txt =>
          if Ascii.eqb c "]" then
            {| Js.index := Some st; Js.matched := snoc txt c |}
              :: scan_wiki rest (S pos) Outside
          else scan_wiki rest (S pos) (wiki_restart c pos)
      end
  end.

Definition has_prefix (p s : string) : bool := String.prefix p s.

Definition drop_prefix (p s : string) : string :=
  if has_prefix p s then String.substring (String.length p)
                           (String.length s - String.length p) s
  else s.

Definition drop_suffix (p s : string) : string :=
  String.rev (drop_prefix (String.rev p) (String.rev s)).

(** The text after the last [/]. *)
Fixpoint basename_go (s acc : string) : string :=
  match s with
  | "" => acc
  | String c rest =>
      if Ascii.eqb c "/" then basename_go rest "" else basename_go rest (snoc acc c)
  end.

Definition note_name (s : string) : string :=
  drop_suffix ".md" (basename_go (drop_suffix "]]" (drop_prefix "[[" s)) "").

#[export] Instance workspace : NoteWorkspace.Statics := {|
  NoteWorkspace.rxTagNoAnchors ln := scan_tags ln 0 None;
  NoteWorkspace.rxWikiLink ln := scan_wiki ln 0 Outside;
  NoteWorkspace.noteNamesFuzzyMatch a b := bool_decide (note_name a = note_name b)
|}.

Definition ENOENT : ErrnoException := {| code := "ENOENT" |}.

(** A file system given by its files and their contents, in enumeration
    order. *)
Definition world (files : list (string * string)) : World := {|
  noteFiles := files.*1;
  fs_readFile path :=
    match list_to_map (M := gmap string string) files !! path with
    | Some text => inr text
    | None => inl ENOENT
    end
|}.

(** Queries of each kind. *)
Definition query (k : Kind) (text : string) : ContextWord Kind :=
  {| type := k; word := text; hasExtension := false; cw_range := None |}.

(** The dictionary as the extension starts with it. *)
Definition no_files : gmap string (ParsedFile.t Kind) := ∅.

(** A workspace of one note that links to another note. *)
Definition linking_world : World := world [("/a.md", "see [[b]]")].

(** A workspace of one note holding one tag, and the same workspace once
    the note has been emptied. *)
Definition tagged_world : World := world [("/a.md", "#a")].
Definition emptied_world : World := world [("/a.md", "")].

(** The dictionary after the note was indexed with its tag, and after the
    editor reported that the note changed to the empty text. *)
Definition indexed : gmap string (ParsedFile.t Kind) :=
  (NoteParser.hydrateCache tagged_world no_files).1.
Definition reindexed : gmap string (ParsedFile.t Kind) :=
  (NoteParser.updateCacheFor emptied_world "/a.md" indexed).1.

(** The workspace of the specification's scenario for [distinctTags]. *)
Definition two_notes : World := world [("/a.md", "#a #a #b"); ("/b.md", "#b #c")].

(** A document whose content is the empty string and whose flag says it was
    parsed, and one holding a tag. *)
Definition blank_document : ParsedFile.t Kind :=
  {| ParsedFile.fsPath := "/a.md"; ParsedFile.data := Some "";
     ParsedFile.refCandidates := []; ParsedFile._parsed := true |}.
Definition tag_document : ParsedFile.t Kind := ParsedFile.fromData "#a".

(** A text of two lines ended by a carriage return and a line feed, the
    first with a wiki-link ahead of a tag, the second with a tag ahead of a
    wiki-link; and a parsed document, still holding the candidate of [#a],
    whose content has become that text. *)
Definition two_line_text : string :=
  "[[b]] #t" +:+ String Js.CR (String Js.LF "#u [[c]]").
Definition restocked_document : ParsedFile.t Kind :=
  ParsedFile.set_data (Some two_line_text) tag_document.

(** The workspace once every note is gone, and the indexed document of the
    note that held the tag. *)
Definition vanished_world : World := world [].
Definition indexed_document : ParsedFile.t Kind :=
  NoteParser.deref "/a.md" indexed.

(** The workspace once the note has been given another tag. *)
Definition retagged_world : World := world [("/a.md", "#z")].

(** The document that reading the emptied note gives. *)
Definition emptied_document : ParsedFile.t Kind :=
  (ParsedFile.readFile emptied_world false (ParsedFile.new "/a.md")).1.

(** The tagged workspace with a second note enumerated that cannot be
    read. *)
Definition broken_world : World :=
  {| noteFiles := ["/a.md"; "/gone.md"];
     fs_readFile := fs_readFile tagged_world |}.

End Fixture.

(** ** The tokenization as the specification words it

    Definitions that follow the specification's sentences, to compare
    [ParsedFile.parseData] with. *)

Module Spec.

(** A newline, in either convention. *)
Definition LFs : string := String Js.LF "".
Definition CRLFs : string := String Js.CR (String Js.LF "").

(** The separators that [Js.split_newlines] consumed, in order. *)
Fixpoint newline_separators (s : string) : list string :=
  match s with
  | "" => []
  | String c rest =>
      if Ascii.eqb c Js.LF then LFs :: newline_separators rest
      else
        match rest with
        | String c' rest' =>
            if Ascii.eqb c Js.CR && Ascii.eqb c' Js.LF
            then CRLFs :: newline_separators rest'
            else newline_separators rest
        | "" => newline_separators rest
        end
  end.

(** Lines put back together, each followed by its separator. *)
Fixpoint interleave (lines seps : list string) : string :=
  match lines, seps with
  | [], _ => ""
  | l :: _, [] => l
  | l :: lines', sep :: seps' => l +:+ sep +:+ interleave lines' seps'
  end.

Fixpoint last_char (s : string) : option ascii :=
  match s with
  | "" => None
  | String c "" => Some c
  | String _ rest => last_char rest
  end.

Fixpoint chars (s : string) : list ascii :=
  match s with
  | "" => []
  | String c rest => c :: chars rest
  end.

(** [lines] with the newlines [seps] between them is a cut of a text at
    every newline: there is one more line than newlines, no line holds a line
    feed, and a line before a bare line feed does not end in a carriage
    return (the carriage return belongs to the newline). *)
Definition cut_ok (lines seps : list string) : Prop :=
  length lines = S (length seps)
  ∧ Forall (λ ln, Js.LF ∉ chars ln) lines
  ∧ Forall (λ p : string * string,
              p.2 = CRLFs ∨ (p.2 = LFs ∧ last_char p.1 ≠ Some Js.CR))
      (zip lines seps).

(** [lines] is [text] cut at every newline: the lines and the newlines
    between them make up the text. *)
Definition split_at_newlines (text : string) (lines : list string) : Prop :=
  ∃ seps : list string,
    cut_ok lines seps ∧ interleave lines seps = text.

Section Tokenize.
Context {K : Type} `{!ContextWordType.Enum K} `{!NoteWorkspace.Statics}.

(** The candidates of one line: every tag match in match order, then every
    wiki-link match in match order. *)
Definition line_candidates (lineNum : nat) (ln : string) : list (RefCandidate.t K) :=
  map (λ m, RefCandidate.fromMatch lineNum m ContextWordType.Tag)
    (Js.matchAll ln NoteWorkspace.rxTagNoAnchors)
  ++ map (λ m, RefCandidate.fromMatch lineNum m ContextWordType.WikiLink)
       (Js.matchAll ln NoteWorkspace.rxWikiLink).

(** The order the specification gives the candidates: an earlier line first,
    and within a line no wiki-link candidate ahead of a tag candidate. *)
Definition emitted_before (c1 c2 : RefCandidate.t K) : Prop :=
  let l1 := line (r_start (RefCandidate.range c1)) in
  let l2 := line (r_start (RefCandidate.range c2)) in
  l1 < l2
  ∨ (l1 = l2 ∧ (RefCandidate.contextWordType c2 = ContextWordType.Tag →
                RefCandidate.contextWordType c1 = ContextWordType.Tag)).

(** The candidates of a document: those of its lines, in line order. *)
Definition candidates (lines : list string) : list (RefCandidate.t K) :=
  concat (imap line_candidates lines).

(** What the specification's [loadAll] does to one document: [load], and
    when every load of the workspace succeeded, [tokenize]. *)
Definition load (w : World) (useCache : bool) (pf : ParsedFile.t K)
  : ParsedFile.t K * Js.Settled ErrnoException unit :=
  ParsedFile.readFile w useCache pf.

Definition load_then_tokenize (w : World) (useCache : bool) (pf : ParsedFile.t K)
  : ParsedFile.t K :=
  ParsedFile.parseData useCache (load w useCache pf).1.

End Tokenize.
End Spec.

(** ** Reference notions for the index

    What the dictionary and its documents are expected to look like, to
    state the behaviour of the operations with. *)

Module Index.

(** A list without its repetitions, each element where it first stood. *)
Fixpoint first_occurrences (l : list string) : list string :=
  match l with
  | [] => []
  | x :: l' => x :: filter (λ y, y ≠ x) (first_occurrences l')
  end.

Section Index.
Context {K : Type} `{!ContextWordType.Enum K} `{!NoteWorkspace.Statics}.

(** Every document is stored under its own path. *)
Definition keyed_by_path (files : gmap string (ParsedFile.t K)) : Prop :=
  ∀ q pf, files !! q = Some pf → ParsedFile.fsPath pf = q.

(** A candidate of a text of [lines] lines: its range lies on one of the
    lines and is as wide as its raw text. *)
Definition well_ranged (lines : nat) (c : RefCandidate.t K) : Prop :=
  line (r_start (RefCandidate.range c)) = line (r_end (RefCandidate.range c))
  ∧ line (r_start (RefCandidate.range c)) < lines
  ∧ character (r_end (RefCandidate.range c)) =
      character (r_start (RefCandidate.range c))
      + String.length (RefCandidate.rawText c).

(** The document that reading [text] from [path] and tokenizing it gives. *)
Definition tokenized (path text : string) : ParsedFile.t K :=
  {| ParsedFile.fsPath := path;
     ParsedFile.data := Some text;
     ParsedFile.refCandidates := Spec.candidates (Js.split_newlines text);
     ParsedFile._parsed := true |}.

(** The location a candidate of a document is reported at. *)
Definition location_of (pf : ParsedFile.t K) (c : RefCandidate.t K)
  : vscode.Location :=
  {| vscode.uri := ParsedFile.fsPath pf;
     vscode.range :=
       vscode.Range (r_start (RefCandidate.range c))
         (r_end (RefCandidate.range c)) |}.

(** The hits of a query in one document: the locations of the candidates
    that match, in candidate order; none when the document has no content. *)
Definition hits (pf : ParsedFile.t K) (cw : ContextWord K) : list vscode.Location :=
  if Js.truthy_string (ParsedFile.data pf) then
    location_of pf <$>
      List.filter (λ c, RefCandidate.matchesContextWord c cw)
        (ParsedFile.refCandidates pf)
  else [].

End Index.
End Index.

(** * Properties *)

(** ** RefCandidate.matchesContextWord *)

Section RefCandidateFacts.
Context {K : Type} `{!ContextWordType.Enum K} `{!NoteWorkspace.Statics}.
Implicit Types (c : RefCandidate.t K) (cw : ContextWord K).

Lemma matchesContextWord_kind_mismatch c cw :
  type cw ≠ RefCandidate.contextWordType c →
  RefCandidate.matchesContextWord c cw = false.
Proof.
  intros Hne. unfold RefCandidate.matchesContextWord.
  by rewrite bool_decide_eq_false_2.
Qed.

Lemma matchesContextWord_Tag c cw :
  type cw = ContextWordType.Tag →
  RefCandidate.matchesContextWord c cw =
    bool_decide (RefCandidate.contextWordType c = ContextWordType.Tag)
    && bool_decide (RefCandidate.rawText c = "#" +:+ word cw).
Proof.
  intros HTag. unfold RefCandidate.matchesContextWord. rewrite HTag.
  repeat case_bool_decide; simpl; congruence.
Qed.

(** The whole decision table of the method. *)
Lemma matchesContextWord_true c cw :
  RefCandidate.matchesContextWord c cw = true ↔
    RefCandidate.contextWordType c = type cw ∧
    ((type cw = ContextWordType.Tag ∧
      RefCandidate.rawText c = "#" +:+ word cw) ∨
     (type cw ≠ ContextWordType.Tag ∧ type cw = ContextWordType.WikiLink ∧
      NoteWorkspace.noteNamesFuzzyMatch (RefCandidate.rawText c) (word cw) = true)).
Proof.
  unfold RefCandidate.matchesContextWord.
  repeat case_bool_decide; simpl; intuition congruence.
Qed.

(** C5: [matchesContextWord] answers false whenever the kinds differ, and for
    a context word of kind Tag it answers true exactly when the candidate has
    the same kind and its raw text is the string ["#"] followed by the
    context word's bare word; a raw text that differs in any character is
    therefore never matched by a Tag query. *)
Theorem matchesContextWord_tag_exact c cw :
  (type cw ≠ RefCandidate.contextWordType c →
     RefCandidate.matchesContextWord c cw = false)
  ∧ (type cw = ContextWordType.Tag →
     (RefCandidate.matchesContextWord c cw = true ↔
        RefCandidate.contextWordType c = type cw
        ∧ RefCandidate.rawText c = "#" +:+ word cw))
  ∧ (type cw = ContextWordType.Tag →
     RefCandidate.rawText c ≠ "#" +:+ word cw →
     RefCandidate.matchesContextWord c cw = false).
Proof.
  split; [apply matchesContextWord_kind_mismatch|].
  split.
  - intros HTag. rewrite matchesContextWord_true. intuition congruence.
  - intros HTag Hne. rewrite matchesContextWord_Tag by done.
    rewrite (bool_decide_eq_false_2 _ Hne). apply andb_false_r.
Qed.

End RefCandidateFacts.

(** ** ParsedFile.readFile *)

Section ReadFileFacts.
Context {K : Type}.
Implicit Types (pf : ParsedFile.t K) (w : World).

Lemma set_parsed_same pf : ParsedFile.set_parsed (ParsedFile._parsed pf) pf = pf.
Proof. by destruct pf. Qed.

Lemma readFile_call_cached pf :
  Js.truthy_string (ParsedFile.data pf) = true →
  ParsedFile.readFile_call true pf = (pf, ParsedFile.Immediate).
Proof. intros Hd. unfold ParsedFile.readFile_call. by rewrite Hd. Qed.

Lemma readFile_call_uncached useCache pf :
  useCache && Js.truthy_string (ParsedFile.data pf) = false →
  ParsedFile.readFile_call useCache pf =
    (ParsedFile.set_parsed false pf, ParsedFile.AwaitRead (ParsedFile.fsPath pf)).
Proof. intros Hd. unfold ParsedFile.readFile_call. by rewrite Hd. Qed.

(** A cache hit: when the content held is a non-empty string,
    [readFile(true)] resolves at once with the instance itself, hands nothing
    to [fs.readFile], and leaves every field of the document as it was. *)
Theorem readFile_cache_hit_nonempty pf w :
  Js.truthy_string (ParsedFile.data pf) = true →
  ParsedFile.readFile_call true pf = (pf, ParsedFile.Immediate)
  ∧ ParsedFile.readFile w true pf = (pf, Js.Resolved ()).
Proof.
  intros Hd. unfold ParsedFile.readFile.
  by rewrite readFile_call_cached.
Qed.

(** C7: when [readFile] does hand the path to [fs.readFile] and the file
    system answers with an error, the promise is rejected with that error,
    the content and the candidate list are the ones held before the call, and
    the parsed flag is false. *)
Theorem readFile_failure_keeps_content w useCache pf err :
  useCache && Js.truthy_string (ParsedFile.data pf) = false →
  fs_readFile w (ParsedFile.fsPath pf) = inl err →
  ∃ pf',
    ParsedFile.readFile w useCache pf = (pf', Js.Rejected err)
    ∧ ParsedFile.data pf' = ParsedFile.data pf
    ∧ ParsedFile.refCandidates pf' = ParsedFile.refCandidates pf
    ∧ ParsedFile.fsPath pf' = ParsedFile.fsPath pf
    ∧ ParsedFile._parsed pf' = false.
Proof.
  intros Hd Herr. exists (ParsedFile.set_parsed false pf).
  unfold ParsedFile.readFile. rewrite readFile_call_uncached by done.
  simpl. by rewrite Herr.
Qed.

Lemma readFile_success w useCache pf text :
  useCache && Js.truthy_string (ParsedFile.data pf) = false →
  fs_readFile w (ParsedFile.fsPath pf) = inr text →
  ParsedFile.readFile w useCache pf =
    (ParsedFile.set_data (Some text) (ParsedFile.set_parsed false pf),
     Js.Resolved ()).
Proof.
  intros Hd Hok. unfold ParsedFile.readFile.
  rewrite readFile_call_uncached by done. simpl. by rewrite Hok.
Qed.

End ReadFileFacts.

(** ** Js.split_newlines *)

Section SplitFacts.

Lemma string_ind2 (P : string → Prop) :
  P "" →
  (∀ c, P (String c "")) →
  (∀ c c' s, P s → P (String c' s) → P (String c (String c' s))) →
  ∀ s, P s.
Proof.
  intros H0 H1 H2 s.
  enough (P s ∧ ∀ c, P (String c s)) by tauto.
  induction s as [|c' s [IH1 IH2]]; [by split|].
  split; [apply IH2|]. intros c. by apply H2.
Qed.

Lemma split_newlines_nonempty s : Js.split_newlines s ≠ [].
Proof.
  induction s as [|c|c c' s IH1 IH2] using string_ind2; [done|..].
  - simpl. by destruct (Ascii.eqb c Js.LF).
  - change (Js.split_newlines (String c (String c' s))) with
      (if Ascii.eqb c Js.LF then "" :: Js.split_newlines (String c' s)
       else if Ascii.eqb c Js.CR && Ascii.eqb c' Js.LF
            then "" :: Js.split_newlines s
            else Js.push_front c (Js.split_newlines (String c' s))).
    destruct (Ascii.eqb c Js.LF); [done|].
    destruct (Ascii.eqb c Js.CR && Ascii.eqb c' Js.LF); [done|].
    by destruct (Js.split_newlines (String c' s)).
Qed.

Lemma split_newlines_cons2 c c' s :
  Js.split_newlines (String c (String c' s)) =
    if Ascii.eqb c Js.LF then "" :: Js.split_newlines (String c' s)
    else if Ascii.eqb c Js.CR && Ascii.eqb c' Js.LF
         then "" :: Js.split_newlines s
         else Js.push_front c (Js.split_newlines (String c' s)).
Proof. reflexivity. Qed.

Lemma newline_separators_cons2 c c' s :
  Spec.newline_separators (String c (String c' s)) =
    if Ascii.eqb c Js.LF then Spec.LFs :: Spec.newline_separators (String c' s)
    else if Ascii.eqb c Js.CR && Ascii.eqb c' Js.LF
         then Spec.CRLFs :: Spec.newline_separators s
         else Spec.newline_separators (String c' s).
Proof. reflexivity. Qed.

Lemma interleave_push_front c lines seps :
  lines ≠ [] →
  Spec.interleave (Js.push_front c lines) seps = String c (Spec.interleave lines seps).
Proof. destruct lines as [|l ls]; [done|]. intros _. by destruct seps. Qed.

Lemma length_push_front c lines :
  lines ≠ [] → length (Js.push_front c lines) = length lines.
Proof. by destruct lines. Qed.

Lemma split_newlines_length s :
  length (Js.split_newlines s) = S (length (Spec.newline_separators s)).
Proof.
  induction s as [|c|c c' s IH1 IH2] using string_ind2; [done|..].
  - simpl. by destruct (Ascii.eqb c Js.LF).
  - rewrite split_newlines_cons2, newline_separators_cons2.
    destruct (Ascii.eqb c Js.LF); [cbn [length]; by rewrite IH2|].
    destruct (Ascii.eqb c Js.CR && Ascii.eqb c' Js.LF); [cbn [length]; by rewrite IH1|].
    rewrite length_push_front; [done|apply split_newlines_nonempty].
Qed.

Lemma split_newlines_interleave s :
  Spec.interleave (Js.split_newlines s) (Spec.newline_separators s) = s.
Proof.
  induction s as [|c|c c' s IH1 IH2] using string_ind2; [done|..].
  - simpl. destruct (Ascii.eqb c Js.LF) eqn:Hc; [|done].
    apply Ascii.eqb_eq in Hc as ->. done.
  - rewrite split_newlines_cons2, newline_separators_cons2.
    destruct (Ascii.eqb c Js.LF) eqn:Hc.
    { apply Ascii.eqb_eq in Hc as ->. cbn [Spec.interleave]. by rewrite IH2. }
    destruct (Ascii.eqb c Js.CR && Ascii.eqb c' Js.LF) eqn:Hcc.
    { apply andb_true_iff in Hcc as [->%Ascii.eqb_eq ->%Ascii.eqb_eq].
      cbn [Spec.interleave]. by rewrite IH1. }
    rewrite interleave_push_front by apply split_newlines_nonempty.
    by rewrite IH2.
Qed.

Lemma Forall_push_front (P : string → Prop) c lines :
  lines ≠ [] →
  (∀ l, P l → P (String c l)) →
  Forall P lines → Forall P (Js.push_front c lines).
Proof.
  destruct lines as [|l ls]; [done|]. intros _ HP Hall.
  inversion_clear Hall. constructor; auto.
Qed.

Lemma split_newlines_no_LF s :
  Forall (λ ln, Js.LF ∉ Spec.chars ln) (Js.split_newlines s).
Proof.
  induction s as [|c|c c' s IH1 IH2] using string_ind2.
  - repeat constructor. simpl. apply not_elem_of_nil.
  - simpl. destruct (Ascii.eqb c Js.LF) eqn:Hc.
    + repeat constructor; simpl; apply not_elem_of_nil.
    + repeat constructor. simpl. apply Ascii.eqb_neq in Hc.
      rewrite list_elem_of_singleton. congruence.
  - rewrite split_newlines_cons2.
    destruct (Ascii.eqb c Js.LF) eqn:Hc.
    { constructor; [simpl; apply not_elem_of_nil|done]. }
    destruct (Ascii.eqb c Js.CR && Ascii.eqb c' Js.LF).
    { constructor; [simpl; apply not_elem_of_nil|done]. }
    apply Forall_push_front; [apply split_newlines_nonempty| |done].
    intros l Hl. simpl. apply Ascii.eqb_neq in Hc.
    rewrite not_elem_of_cons. split; [congruence|done].
Qed.

Lemma push_front_head c lines l ls :
  Js.push_front c lines = l :: ls → l ≠ "".
Proof. destruct lines; intros [= <- _]; done. Qed.

Lemma split_newlines_head_LF c s ls seps :
  Js.split_newlines (String c s) = "" :: ls →
  Spec.newline_separators (String c s) = Spec.LFs :: seps →
  c = Js.LF.
Proof.
  destruct s as [|c' s].
  - simpl. destruct (Ascii.eqb c Js.LF) eqn:Hc; [|done].
    by apply Ascii.eqb_eq in Hc.
  - rewrite split_newlines_cons2, newline_separators_cons2.
    destruct (Ascii.eqb c Js.LF) eqn:Hc; [by apply Ascii.eqb_eq in Hc|].
    destruct (Ascii.eqb c Js.CR && Ascii.eqb c' Js.LF); [done|].
    intros Hpf _. by apply push_front_head in Hpf.
Qed.

Lemma last_char_cons c l :
  Spec.last_char (String c l) = if decide (l = "") then Some c else Spec.last_char l.
Proof. by destruct l. Qed.

Lemma split_newlines_greedy s :
  Forall (λ p : string * string,
            p.2 = Spec.CRLFs ∨ (p.2 = Spec.LFs ∧ Spec.last_char p.1 ≠ Some Js.CR))
    (zip (Js.split_newlines s) (Spec.newline_separators s)).
Proof.
  induction s as [|c|c c' s IH1 IH2] using string_ind2.
  - constructor.
  - simpl. destruct (Ascii.eqb c Js.LF); [|constructor].
    constructor; [by right|constructor].
  - rewrite split_newlines_cons2, newline_separators_cons2.
    destruct (Ascii.eqb c Js.LF) eqn:Hc.
    { constructor; [by right|done]. }
    destruct (Ascii.eqb c Js.CR && Ascii.eqb c' Js.LF) eqn:Hcc.
    { constructor; [by left|done]. }
    destruct (Js.split_newlines (String c' s)) as [|l ls] eqn:Hsplit;
      [by apply split_newlines_nonempty in Hsplit|].
    destruct (Spec.newline_separators (String c' s)) as [|sep seps] eqn:Hseps;
      [constructor|].
    change (zip (Js.push_front c (l :: ls)) (sep :: seps))
      with ((String c l, sep) :: zip ls seps).
    change (zip (l :: ls) (sep :: seps)) with ((l, sep) :: zip ls seps) in IH2.
    inversion_clear IH2 as [|?? Hhd Htl].
    constructor; [|done]. cbn [fst snd] in *.
    destruct Hhd as [?|[-> Hlast]]; [by left|right]. split; [done|].
    rewrite last_char_cons. case_decide as Hl; [|done]. subst l.
    assert (c' = Js.LF) as -> by eauto using split_newlines_head_LF.
    rewrite andb_true_r in Hcc. apply Ascii.eqb_neq in Hcc. congruence.
Qed.

(** [split(/\r?\n/)] cuts the text at every newline of either convention. *)
Lemma split_newlines_spec s : Spec.split_at_newlines s (Js.split_newlines s).
Proof.
  exists (Spec.newline_separators s). split; [|apply split_newlines_interleave].
  split_and!;
    auto using split_newlines_length, split_newlines_no_LF, split_newlines_greedy.
Qed.

Lemma cut_ok_tail l ls sep seps :
  Spec.cut_ok (l :: ls) (sep :: seps) → Spec.cut_ok ls seps.
Proof.
  intros (Hlen & Hlf & Hgr). split_and!.
  - simpl in Hlen. lia.
  - by inversion Hlf.
  - by inversion Hgr.
Qed.

Lemma cut_ok_head_char c l ls seps :
  Spec.cut_ok (String c l :: ls) seps → c ≠ Js.LF ∧ Spec.cut_ok (l :: ls) seps.
Proof.
  intros (Hlen & Hlf & Hgr).
  inversion_clear Hlf as [|?? Hc Hls]. simpl in Hc.
  apply not_elem_of_cons in Hc as [Hc Hl]. split; [done|]. split_and!.
  - done.
  - by constructor.
  - destruct seps as [|sep seps]; [constructor|].
    change (zip (String c l :: ls) (sep :: seps))
      with ((String c l, sep) :: zip ls seps) in Hgr.
    change (zip (l :: ls) (sep :: seps)) with ((l, sep) :: zip ls seps).
    inversion_clear Hgr as [|?? Hhd Htl]. constructor; [|done].
    cbn [fst snd] in *. destruct Hhd as [?|[? Hlast]]; [by left|right].
    split; [done|]. rewrite last_char_cons in Hlast.
    case_decide; [by subst|done].
Qed.

(** How a cut text starts: with a bare line feed, with a carriage return and
    line feed, or with a character of the first line. *)
Lemma cut_ok_cons c rest lines seps :
  Spec.cut_ok lines seps → Spec.interleave lines seps = String c rest →
  (c = Js.LF ∧ ∃ ls seps',
     lines = "" :: ls ∧ Spec.cut_ok ls seps' ∧ Spec.interleave ls seps' = rest)
  ∨ (c = Js.CR ∧ ∃ rest' ls seps',
       rest = String Js.LF rest' ∧ lines = "" :: ls ∧ Spec.cut_ok ls seps'
       ∧ Spec.interleave ls seps' = rest')
  ∨ (c ≠ Js.LF ∧ (∀ rest', c = Js.CR → rest ≠ String Js.LF rest')
     ∧ ∃ l ls,
         lines = String c l :: ls ∧ Spec.cut_ok (l :: ls) seps
         ∧ Spec.interleave (l :: ls) seps = rest).
Proof.
  intros Hok Hjoin. destruct lines as [|[|c0 l] ls].
  { destruct Hok as (Hlen & _). simpl in Hlen. lia. }
  - destruct seps as [|sep seps]; [done|].
    pose proof (cut_ok_tail _ _ _ _ Hok) as Htail.
    destruct Hok as (_ & _ & Hgr). destruct ls as [|l' ls].
    { destruct Htail as (Hlen & _). simpl in Hlen. lia. }
    inversion_clear Hgr as [|?? Hhd _]. cbn [fst snd] in Hhd.
    destruct Hhd as [->|[-> _]]; injection Hjoin as <- <-.
    + right; left. split; [done|]. by eexists _, _, _.
    + left. split; [done|]. by eexists _, _.
  - assert (Spec.interleave (String c0 l :: ls) seps =
            String c0 (Spec.interleave (l :: ls) seps)) as Hcons
      by by destruct seps.
    rewrite Hcons in Hjoin. injection Hjoin as -> <-.
    destruct (cut_ok_head_char _ _ _ _ Hok) as [Hc Hok'].
    right; right. split; [done|]. split; [|by eexists _, _].
    intros rest' -> Hrest.
    destruct Hok' as (_ & Hlf & _). inversion_clear Hlf as [|?? Hl _].
    destruct l as [|x l].
    + destruct seps as [|sep seps]; [by destruct ls|].
      destruct Hok as (_ & _ & Hgr).
      inversion_clear Hgr as [|?? Hhd _]. cbn [fst snd] in Hhd.
      destruct Hhd as [->|[-> Hlast]]; [done|]. by apply Hlast.
    + assert (Spec.interleave (String x l :: ls) seps =
              String x (Spec.interleave (l :: ls) seps)) as Hcons'
        by by destruct seps.
      change (Spec.interleave (String x l :: ls) seps = String Js.LF rest') in Hrest.
      rewrite Hcons' in Hrest. injection Hrest as -> _.
      simpl in Hl. apply Hl. left.
Qed.

Lemma split_newlines_cons_char c rest :
  c ≠ Js.LF → (∀ rest', c = Js.CR → rest ≠ String Js.LF rest') →
  Js.split_newlines (String c rest) = Js.push_front c (Js.split_newlines rest).
Proof.
  intros Hc Hrest. destruct rest as [|c' rest].
  - simpl. by rewrite (proj2 (Ascii.eqb_neq _ _) Hc).
  - rewrite split_newlines_cons2, (proj2 (Ascii.eqb_neq _ _) Hc).
    destruct (Ascii.eqb c Js.CR && Ascii.eqb c' Js.LF) eqn:Hcc; [|done].
    apply andb_true_iff in Hcc as [->%Ascii.eqb_eq ->%Ascii.eqb_eq].
    by destruct (Hrest rest).
Qed.

Lemma cut_ok_unique n :
  ∀ text lines seps,
    String.length text = n →
    Spec.cut_ok lines seps → Spec.interleave lines seps = text →
    lines = Js.split_newlines text.
Proof.
  induction n as [n IH] using lt_wf_ind. intros [|c rest] lines seps Hn Hok Hjoin.
  - destruct Hok as (Hlen & _ & Hgr).
    destruct lines as [|l ls]; [done|]. destruct seps as [|sep seps].
    + simpl in *. subst l. destruct ls; [done|simpl in Hlen; lia].
    + destruct ls as [|l' ls]; [simpl in Hlen; lia|].
      inversion_clear Hgr as [|?? Hhd _]. cbn [fst snd] in Hhd.
      destruct l; [|done]. by destruct Hhd as [->|[-> _]].
  - simpl in Hn.
    destruct (cut_ok_cons _ _ _ _ Hok Hjoin)
      as [(-> & ls & seps' & -> & Hok' & Hjoin')
         |[(-> & rest' & ls & seps' & -> & -> & Hok' & Hjoin')
          |(Hc & Hrest & l & ls & -> & Hok' & Hjoin')]].
    + change (Js.split_newlines (String Js.LF rest))
        with ("" :: Js.split_newlines rest).
      f_equal. apply (IH (String.length rest)) with seps'; [lia|done..].
    + change (Js.split_newlines (String Js.CR (String Js.LF rest')))
        with ("" :: Js.split_newlines rest').
      f_equal. simpl in Hn.
      apply (IH (String.length rest')) with seps'; [lia|done..].
    + rewrite split_newlines_cons_char by done.
      by rewrite <-(IH (String.length rest) ltac:(lia) rest (l :: ls) seps).
Qed.

(** The cut is determined by the text: [split_at_newlines] holds of no other
    list of lines than the one [split] returns. *)
Lemma split_at_newlines_unique text lines :
  Spec.split_at_newlines text lines → lines = Js.split_newlines text.
Proof.
  intros (seps & Hok & Hjoin).
  by apply (cut_ok_unique (String.length text) text lines seps).
Qed.

End SplitFacts.

(** ** ParsedFile.parseData *)

Section ParseDataFacts.
Context {K : Type} `{!ContextWordType.Enum K} `{!NoteWorkspace.Statics}.
Implicit Types (pf this : ParsedFile.t K).

Lemma set_refCandidates_same this :
  ParsedFile.set_refCandidates (ParsedFile.refCandidates this) this = this.
Proof. by destruct this. Qed.

Lemma set_refCandidates_twice cs cs' this :
  ParsedFile.set_refCandidates cs (ParsedFile.set_refCandidates cs' this) =
    ParsedFile.set_refCandidates cs this.
Proof. done. Qed.

Lemma pushMatches_eq lineNum cwType ms this :
  ParsedFile.pushMatches lineNum cwType ms this =
    ParsedFile.set_refCandidates
      (ParsedFile.refCandidates this
         ++ map (λ m, RefCandidate.fromMatch lineNum m cwType) ms) this.
Proof.
  unfold ParsedFile.pushMatches. revert this.
  induction ms as [|m ms IH]; intros this; simpl.
  - by rewrite app_nil_r, set_refCandidates_same.
  - rewrite IH. unfold ParsedFile.push.
    rewrite set_refCandidates_twice. simpl. by rewrite <-app_assoc.
Qed.

Lemma parseLine_eq ln lineNum this :
  ParsedFile.parseLine ln lineNum this =
    ParsedFile.set_refCandidates
      (ParsedFile.refCandidates this ++ Spec.line_candidates lineNum ln) this.
Proof.
  unfold ParsedFile.parseLine, Spec.line_candidates.
  rewrite !pushMatches_eq, set_refCandidates_twice. simpl.
  by rewrite <-app_assoc.
Qed.

Lemma forEachIndexed_parseLine i lines this :
  ParsedFile.forEachIndexed ParsedFile.parseLine i lines this =
    ParsedFile.set_refCandidates
      (ParsedFile.refCandidates this
         ++ concat (imap (λ j, Spec.line_candidates (i + j)) lines)) this.
Proof.
  revert i this. induction lines as [|ln lines IH]; intros i this; simpl.
  - by rewrite app_nil_r, set_refCandidates_same.
  - rewrite IH, parseLine_eq, set_refCandidates_twice. simpl.
    rewrite <-app_assoc, Nat.add_0_r. do 4 f_equal.
    apply imap_ext. intros j ? _. simpl. f_equal. lia.
Qed.

(** What a run of the tokenizing branch leaves in the document. *)
Lemma parseData_fresh useCache this d :
  ParsedFile.data this = Some d → d ≠ "" →
  useCache && ParsedFile._parsed this = false →
  ParsedFile.parseData useCache this =
    {| ParsedFile.fsPath := ParsedFile.fsPath this;
       ParsedFile.data := Some d;
       ParsedFile.refCandidates := Spec.candidates (Js.split_newlines d);
       ParsedFile._parsed := true |}.
Proof.
  intros Hd Hne Hc. unfold ParsedFile.parseData. rewrite Hd, Hc.
  destruct d as [|c d]; [done|].
  rewrite forEachIndexed_parseLine. unfold Spec.candidates.
  unfold ParsedFile.set_parsed, ParsedFile.set_refCandidates. simpl.
  by rewrite Hd.
Qed.

Lemma parseData_empty useCache this :
  ParsedFile.data this = Some "" → ParsedFile.parseData useCache this = this.
Proof. intros Hd. unfold ParsedFile.parseData. by rewrite Hd. Qed.

Lemma parseData_unloaded useCache this :
  ParsedFile.data this = None → ParsedFile.parseData useCache this = this.
Proof. intros Hd. unfold ParsedFile.parseData. by rewrite Hd. Qed.

Lemma parseData_parsed this :
  ParsedFile._parsed this = true → ParsedFile.parseData true this = this.
Proof.
  intros Hp. unfold ParsedFile.parseData. rewrite Hp. simpl.
  by destruct (ParsedFile.data this) as [[|??]|].
Qed.

Lemma parseData_data useCache this :
  ParsedFile.data (ParsedFile.parseData useCache this) = ParsedFile.data this.
Proof.
  destruct (ParsedFile.data this) as [[|c d]|] eqn:Hd.
  - by rewrite parseData_empty.
  - destruct (useCache && ParsedFile._parsed this) eqn:Hc.
    + unfold ParsedFile.parseData. by rewrite Hd, Hc.
    + by rewrite (parseData_fresh _ _ (String c d)).
  - by rewrite parseData_unloaded.
Qed.

Lemma parseData_fsPath useCache this :
  ParsedFile.fsPath (ParsedFile.parseData useCache this) = ParsedFile.fsPath this.
Proof.
  destruct (ParsedFile.data this) as [[|c d]|] eqn:Hd.
  - by rewrite parseData_empty.
  - destruct (useCache && ParsedFile._parsed this) eqn:Hc.
    + unfold ParsedFile.parseData. by rewrite Hd, Hc.
    + by rewrite (parseData_fresh _ _ (String c d)).
  - by rewrite parseData_unloaded.
Qed.

Lemma parseData_cached this d :
  ParsedFile.data this = Some d → ParsedFile._parsed this = true →
  ParsedFile.parseData true this = this.
Proof. intros _. apply parseData_parsed. Qed.

Lemma parseData_sets_parsed useCache this d :
  ParsedFile.data this = Some d → d ≠ "" →
  ParsedFile._parsed (ParsedFile.parseData useCache this) = true.
Proof.
  intros Hd Hne. destruct (useCache && ParsedFile._parsed this) eqn:Hc.
  - apply andb_true_iff in Hc as [-> Hp]. by rewrite parseData_parsed.
  - by rewrite (parseData_fresh _ _ d).
Qed.

(** A second [parseData(true)] is a cache hit. *)
Lemma parseData_then_cached useCache this :
  ParsedFile.parseData true (ParsedFile.parseData useCache this) =
    ParsedFile.parseData useCache this.
Proof.
  destruct (ParsedFile.data this) as [[|c d]|] eqn:Hd.
  - rewrite (parseData_empty useCache this Hd). by apply parseData_empty.
  - apply parseData_parsed. by apply (parseData_sets_parsed _ _ (String c d)).
  - rewrite (parseData_unloaded useCache this Hd). by apply parseData_unloaded.
Qed.

(** Parsing twice with the same flag gives what parsing once gave. *)
Lemma parseData_twice useCache this :
  ParsedFile.parseData useCache (ParsedFile.parseData useCache this) =
    ParsedFile.parseData useCache this.
Proof.
  destruct useCache; [apply parseData_then_cached|].
  destruct (ParsedFile.data this) as [[|c d]|] eqn:Hd.
  - rewrite (parseData_empty false this Hd). by apply parseData_empty.
  - rewrite (parseData_fresh false this (String c d)) by done.
    by rewrite (parseData_fresh false _ (String c d)).
  - rewrite (parseData_unloaded false this Hd). by apply parseData_unloaded.
Qed.

(** C8: a [parseData(true)] that follows a [parseData] on unchanged content
    returns the document exactly as the first call left it, so the candidate
    list is the one the first tokenization produced; and whenever the parsed
    flag is already true, [parseData(true)] changes nothing at all. *)
Theorem parseData_cache_reuse_idempotent useCache this :
  ParsedFile.parseData true (ParsedFile.parseData useCache this) =
    ParsedFile.parseData useCache this
  ∧ ParsedFile.refCandidates
      (ParsedFile.parseData true (ParsedFile.parseData useCache this)) =
    ParsedFile.refCandidates (ParsedFile.parseData useCache this)
  ∧ (ParsedFile._parsed this = true → ParsedFile.parseData true this = this).
Proof.
  rewrite parseData_then_cached. auto using parseData_parsed.
Qed.

Lemma all_pairs_StronglySorted {A} (R : relation A) (l : list A) :
  (∀ x y, x ∈ l → y ∈ l → R x y) → StronglySorted R l.
Proof.
  induction l as [|a l IH]; intros HR; constructor.
  - apply IH. intros x y Hx Hy. apply HR; by right.
  - apply Forall_forall. intros y Hy. apply HR; [left|by right].
Qed.

Lemma elem_of_concat {A} (x : A) (ls : list (list A)) :
  x ∈ concat ls ↔ ∃ l, x ∈ l ∧ l ∈ ls.
Proof.
  induction ls as [|l ls IH]; simpl.
  - split; [by intros ?%elem_of_nil|]. by intros (l & _ & ?%elem_of_nil).
  - rewrite elem_of_app, IH. split.
    + intros [Hx|(l' & Hx & Hl')]; [exists l|exists l']; split; try done;
        [left|by right].
    + intros (l' & Hx & [->|Hl']%elem_of_cons); [by left|right; eauto].
Qed.

Lemma elem_of_line_candidates c lineNum ln :
  c ∈ Spec.line_candidates lineNum ln →
  line (r_start (RefCandidate.range c)) = lineNum.
Proof.
  unfold Spec.line_candidates.
  rewrite elem_of_app, !list_elem_of_fmap.
  by intros [(m & -> & _)|(m & -> & _)].
Qed.

Lemma line_candidates_sorted lineNum ln :
  StronglySorted Spec.emitted_before (Spec.line_candidates lineNum ln).
Proof.
  unfold Spec.line_candidates. apply StronglySorted_app. split_and!.
  - intros c1 c2 (m1 & -> & _)%list_elem_of_fmap (m2 & -> & _)%list_elem_of_fmap.
    right. by split.
  - apply all_pairs_StronglySorted.
    intros c1 c2 (m1 & -> & _)%list_elem_of_fmap (m2 & -> & _)%list_elem_of_fmap.
    right. by split.
  - apply all_pairs_StronglySorted.
    intros c1 c2 (m1 & -> & _)%list_elem_of_fmap (m2 & -> & _)%list_elem_of_fmap.
    right. by split.
Qed.

Lemma elem_of_candidates_from c i lines :
  c ∈ concat (imap (λ j, Spec.line_candidates (i + j)) lines) →
  i ≤ line (r_start (RefCandidate.range c)).
Proof.
  rewrite elem_of_concat. intros (block & Hc & Hblock).
  apply elem_of_lookup_imap in Hblock as (j & ln & -> & _).
  apply elem_of_line_candidates in Hc. lia.
Qed.

Lemma candidates_from_sorted i lines :
  StronglySorted Spec.emitted_before
    (concat (imap (λ j, Spec.line_candidates (i + j)) lines)).
Proof.
  revert i. induction lines as [|ln lines IH]; intros i; [constructor|].
  rewrite imap_cons. simpl. apply StronglySorted_app. split_and!.
  - intros c1 c2 Hc1 Hc2. left.
    apply elem_of_line_candidates in Hc1.
    assert (S i ≤ line (r_start (RefCandidate.range c2))); [|lia].
    apply (elem_of_candidates_from c2 (S i) lines).
    erewrite imap_ext; [done|]. intros j ? _. simpl. f_equal. lia.
  - apply line_candidates_sorted.
  - erewrite imap_ext; [apply (IH (S i))|].
    intros j ? _. simpl. f_equal. lia.
Qed.

(** The candidates come in line order, tags ahead of wiki-links in a line. *)
Lemma candidates_sorted lines :
  StronglySorted Spec.emitted_before (Spec.candidates (K:=K) lines).
Proof. apply (candidates_from_sorted 0). Qed.

(** C6: on a document holding a non-empty text, a [parseData] that is not a
    cache hit cuts the text at every [\n] or [\r\n], replaces whatever
    candidates were stored by the candidates of the lines in line order, each
    line giving its tag matches in match order and then its wiki-link matches
    in match order, and sets the parsed flag. *)
Theorem parseData_tokenizes_by_line useCache this d :
  ParsedFile.data this = Some d → d ≠ "" →
  useCache && ParsedFile._parsed this = false →
  (∀ lines, Spec.split_at_newlines d lines ↔ lines = Js.split_newlines d)
  ∧ ParsedFile.refCandidates (ParsedFile.parseData useCache this) =
      concat (imap Spec.line_candidates (Js.split_newlines d))
  ∧ (∀ lineNum ln,
       Spec.line_candidates lineNum ln =
         map (λ m, RefCandidate.fromMatch lineNum m ContextWordType.Tag)
           (Js.matchAll ln NoteWorkspace.rxTagNoAnchors)
         ++ map (λ m, RefCandidate.fromMatch lineNum m ContextWordType.WikiLink)
              (Js.matchAll ln NoteWorkspace.rxWikiLink))
  ∧ StronglySorted Spec.emitted_before
      (ParsedFile.refCandidates (ParsedFile.parseData useCache this))
  ∧ ParsedFile._parsed (ParsedFile.parseData useCache this) = true
  ∧ ParsedFile.data (ParsedFile.parseData useCache this) = Some d
  ∧ ParsedFile.fsPath (ParsedFile.parseData useCache this) = ParsedFile.fsPath this.
Proof.
  intros Hd Hne Hc. rewrite (parseData_fresh _ _ d) by done.
  split.
  { intros lines. split; [apply split_at_newlines_unique|].
    intros ->. apply split_newlines_spec. }
  simpl. split_and!; [done..|apply candidates_sorted|done|done|done].
Qed.

End ParseDataFacts.

(** ** Js.StringSet *)

Section StringSetFacts.
Implicit Types (s : Js.StringSet.t) (x y : string) (l : list string).

Lemma StringSet_elem_of_add s x y :
  y ∈ Js.StringSet.add s x ↔ y ∈ s ∨ y = x.
Proof.
  unfold Js.StringSet.add. case_decide as Hx.
  - split; [by left|]. by intros [?| ->].
  - by rewrite elem_of_app, list_elem_of_singleton.
Qed.

Lemma StringSet_NoDup_add s x : NoDup s → NoDup (Js.StringSet.add s x).
Proof.
  intros Hs. unfold Js.StringSet.add. case_decide as Hx; [done|].
  apply NoDup_app. split_and!; [done| |apply NoDup_singleton].
  intros y Hy ->%list_elem_of_singleton. done.
Qed.

Lemma StringSet_elem_of_foldl {A} (f : A → string) (xs : list A) s y :
  y ∈ foldl (λ acc a, Js.StringSet.add acc (f a)) s xs ↔
    y ∈ s ∨ ∃ a, a ∈ xs ∧ f a = y.
Proof.
  revert s. induction xs as [|a xs IH]; intros s; simpl.
  - split; [by left|]. by intros [?|(a & ?%elem_of_nil & _)].
  - rewrite IH, StringSet_elem_of_add. split.
    + intros [[?| ->]|(a' & ? & ?)]; [by left|right..].
      * exists a. split; [left|done].
      * exists a'. split; [by right|done].
    + intros [?|(a' & [->|?]%elem_of_cons & <-)]; [by left; left|by left; right|].
      right. by exists a'.
Qed.

Lemma StringSet_NoDup_foldl {A} (f : A → string) (xs : list A) s :
  NoDup s → NoDup (foldl (λ acc a, Js.StringSet.add acc (f a)) s xs).
Proof.
  revert s. induction xs as [|a xs IH]; intros s Hs; simpl; [done|].
  by apply IH, StringSet_NoDup_add.
Qed.

Lemma StringSet_elem_of_from l y : y ∈ Js.StringSet.from l ↔ y ∈ l.
Proof.
  unfold Js.StringSet.from.
  rewrite (StringSet_elem_of_foldl id l Js.StringSet.empty y).
  unfold Js.StringSet.empty. split.
  - by intros [?%elem_of_nil|(a & ? & <-)].
  - intros ?. right. by exists y.
Qed.

Lemma StringSet_NoDup_from l : NoDup (Js.StringSet.from l).
Proof. apply (StringSet_NoDup_foldl id), NoDup_nil_2. Qed.

End StringSetFacts.

(** ** ParsedFile: the queries *)

Section QueryFacts.
Context {K : Type} `{!ContextWordType.Enum K} `{!NoteWorkspace.Statics}.
Implicit Types (pf this : ParsedFile.t K) (cw : ContextWord K).

Lemma rawRangesForWord_empty_data this o :
  ParsedFile.data this = Some "" → ParsedFile._rawRangesForWord this o = [].
Proof.
  intros Hd. unfold ParsedFile._rawRangesForWord.
  by rewrite bool_decide_eq_true_2.
Qed.

Lemma rawRangesForWord_no_data this o :
  ParsedFile.data this = None → ParsedFile._rawRangesForWord this o = [].
Proof.
  intros Hd. unfold ParsedFile._rawRangesForWord. rewrite Hd.
  by rewrite bool_decide_eq_false_2.
Qed.

Lemma vscodeRangesForWord_empty_data this o :
  ParsedFile.data this = Some "" → ParsedFile.vscodeRangesForWord this o = [].
Proof.
  intros Hd. unfold ParsedFile.vscodeRangesForWord.
  by rewrite rawRangesForWord_empty_data.
Qed.

Lemma elem_of_tagSet this x :
  x ∈ ParsedFile.tagSet this ↔
    ∃ rc, rc ∈ ParsedFile.refCandidates this
          ∧ RefCandidate.contextWordType rc = ContextWordType.Tag
          ∧ RefCandidate.rawText rc = x.
Proof.
  unfold ParsedFile.tagSet. rewrite StringSet_elem_of_foldl.
  unfold Js.StringSet.empty. split.
  - intros [?%elem_of_nil|(rc & Hrc & <-)]; [done|].
    apply list_elem_of_In, filter_In in Hrc as [Hin Htag].
    exists rc. rewrite list_elem_of_In. by apply bool_decide_eq_true in Htag.
  - intros (rc & Hin & Htag & <-). right. exists rc. split; [|done].
    apply list_elem_of_In, filter_In. rewrite <-list_elem_of_In.
    by rewrite bool_decide_eq_true.
Qed.

Lemma NoDup_tagSet this : NoDup (ParsedFile.tagSet this).
Proof. apply StringSet_NoDup_foldl, NoDup_nil_2. Qed.

Lemma tagSet_refCandidates this this' :
  ParsedFile.refCandidates this = ParsedFile.refCandidates this' →
  ParsedFile.tagSet this = ParsedFile.tagSet this'.
Proof. unfold ParsedFile.tagSet. by intros ->. Qed.

End QueryFacts.

(** ** NoteParser: the dictionary and the steps that update it *)

Section DictionaryFacts.
Context {K : Type} `{!ContextWordType.Enum K} `{!NoteWorkspace.Statics}.
Implicit Types (files : gmap string (ParsedFile.t K)) (pf : ParsedFile.t K).
Implicit Types (ref q : string).

Lemma Array_map_nil_run {A B} (f : A → NoteParser.M (K:=K) B) files :
  NoteParser.Array_map f [] files = (files, []).
Proof. done. Qed.

Lemma Array_map_cons_run {A B} (f : A → NoteParser.M (K:=K) B) x l files :
  NoteParser.Array_map f (x :: l) files =
    let '(files1, y) := f x files in
    let '(files2, ys) := NoteParser.Array_map f l files1 in
    (files2, y :: ys).
Proof.
  simpl. unfold mbind, NoteParser.M_bind.
  destruct (f x files) as [files1 y].
  by destruct (NoteParser.Array_map f l files1).
Qed.

Lemma Array_map_zip_fmap_run {A B C} (f : A * B → NoteParser.M (K:=K) C)
    (g : A → B) l files :
  NoteParser.Array_map f (zip l (g <$> l)) files = NoteParser.Array_map (λ x, f (x, g x)) l files.
Proof.
  revert files. induction l as [|x l IH]; intros files; [done|].
  change (zip (x :: l) (g <$> x :: l)) with ((x, g x) :: zip l (g <$> l)).
  rewrite !Array_map_cons_run.
  destruct (f (x, g x) files) as [files1 y]. by rewrite IH.
Qed.

Lemma deref_lookup ref files :
  is_Some (files !! ref) → files !! ref = Some (NoteParser.deref ref files).
Proof. intros [pf Hpf]. unfold NoteParser.deref. by rewrite Hpf. Qed.

Lemma deref_agree ref files files' :
  files' !! ref = files !! ref →
  NoteParser.deref ref files' = NoteParser.deref ref files.
Proof. unfold NoteParser.deref. by intros ->. Qed.

Lemma deref_insert ref pf files :
  NoteParser.deref ref (<[ref := pf]> files) = pf.
Proof. unfold NoteParser.deref. by rewrite lookup_insert_eq. Qed.

Lemma invoke_acts_on {A} ref (method : ParsedFile.t K → ParsedFile.t K * A) :
  NoteParser.acts_on ref method (NoteParser.invoke ref method).
Proof.
  intros files files' a. unfold NoteParser.invoke.
  destruct (method (NoteParser.deref ref files)) as [pf' a'] eqn:Hm.
  intros [= <- <-]. rewrite deref_insert. split_and!; [done..| |].
  - intros q Hq. by rewrite lookup_insert_ne.
  - intros q Hq. destruct (decide (ref = q)) as [->|].
    + rewrite lookup_insert_eq. eauto.
    + by rewrite lookup_insert_ne.
Qed.

Lemma mret_acts_on {A} ref (a : A) :
  NoteParser.acts_on ref (λ pf, (pf, a)) (mret a).
Proof. intros files files' a' [= <- <-]. done. Qed.

Lemma parsedFileFor_acts_on ref :
  NoteParser.acts_on ref (λ pf, (pf, ref)) (NoteParser.parsedFileFor ref).
Proof. apply (invoke_acts_on ref (λ pf, (pf, ref))). Qed.

Lemma parsedFileFor_present ref files :
  is_Some ((NoteParser.parsedFileFor ref files).1 !! ref).
Proof. simpl. rewrite lookup_insert_eq. eauto. Qed.

(** A run of steps, each acting on the object its own key names by a method
    that gives nothing new when repeated: every object named is changed by
    its method once, and each result is the one the method gives on the
    object as it was at the start. *)
Lemma Array_map_acts_on {A} (method : string → ParsedFile.t K → ParsedFile.t K * A)
    (step : string → NoteParser.M A) l files files' rs :
  (∀ ref, NoteParser.acts_on ref (method ref) (step ref)) →
  (∀ ref pf, method ref (method ref pf).1 = method ref pf) →
  NoteParser.Array_map step l files = (files', rs) →
  rs = (λ ref, (method ref (NoteParser.deref ref files)).2) <$> l
  ∧ (∀ q, q ∈ l →
       NoteParser.deref q files' = (method q (NoteParser.deref q files)).1)
  ∧ (∀ q, q ∉ l → files' !! q = files !! q)
  ∧ (∀ q, is_Some (files !! q) → is_Some (files' !! q)).
Proof.
  intros Hact Hidem. revert files files' rs.
  induction l as [|p l IH]; intros files files' rs.
  { rewrite Array_map_nil_run. intros [= <- <-]. split_and!; try done.
    by intros q ?%elem_of_nil. }
  rewrite Array_map_cons_run.
  destruct (step p files) as [files1 a] eqn:Hstep.
  destruct (NoteParser.Array_map step l files1) as [files2 rs'] eqn:Hrest.
  intros [= <- <-].
  destruct (Hact p _ _ _ Hstep) as (Hp & -> & Hother & Hpres).
  destruct (IH _ _ _ Hrest) as (-> & Hin & Hout & Hpres').
  assert (∀ q, method q (NoteParser.deref q files1) =
               method q (NoteParser.deref q files)) as Hsame.
  { intros q. destruct (decide (q = p)) as [->|Hne].
    - by rewrite Hp, Hidem.
    - by rewrite (deref_agree q files files1) by auto. }
  split_and!.
  - simpl. f_equal. apply list_fmap_ext. intros _ q _. by rewrite Hsame.
  - intros q Hq. destruct (decide (q ∈ l)) as [Hl|Hl].
    + by rewrite Hin, Hsame.
    + apply elem_of_cons in Hq as [->|?]; [|done].
      by rewrite (deref_agree p files1 files2) by auto.
  - intros q [Hne Hq]%not_elem_of_cons. rewrite Hout by done. auto.
  - auto.
Qed.

Lemma Array_map_parsedFileFor_present l files files' rs :
  NoteParser.Array_map NoteParser.parsedFileFor l files = (files', rs) →
  ∀ q, q ∈ l → is_Some (files' !! q).
Proof.
  revert files files' rs. induction l as [|p l IH]; intros files files' rs.
  { intros _ q ?%elem_of_nil. done. }
  rewrite Array_map_cons_run.
  pose proof (parsedFileFor_present p files) as Hp.
  destruct (NoteParser.parsedFileFor p files) as [files1 a].
  destruct (NoteParser.Array_map NoteParser.parsedFileFor l files1)
    as [files2 rs'] eqn:Hrest.
  intros [= <- <-] q [->|Hq]%elem_of_cons; [|by eapply IH].
  eapply (Array_map_acts_on (λ ref pf, (pf, ref))) in Hrest
    as (_ & _ & _ & Hpres); auto using parsedFileFor_acts_on.
Qed.

Lemma readFile_call_twice useCache pf :
  ParsedFile.readFile_call useCache (ParsedFile.readFile_call useCache pf).1 =
    ParsedFile.readFile_call useCache pf.
Proof.
  unfold ParsedFile.readFile_call.
  by destruct (useCache && Js.truthy_string (ParsedFile.data pf)) eqn:Hc;
    simpl; rewrite Hc.
Qed.

Lemma readFile_callback_twice answer pf :
  ParsedFile.readFile_callback answer (ParsedFile.readFile_callback answer pf).1 =
    ParsedFile.readFile_callback answer pf.
Proof. by destruct answer. Qed.

(** [readFile] is its synchronous part followed by the settlement of the
    promise that part returned. *)
Lemma readFile_call_then_settle w useCache pf :
  ParsedFile.readFile w useCache pf =
    match (ParsedFile.readFile_call useCache pf).2 with
    | ParsedFile.Immediate =>
        ((ParsedFile.readFile_call useCache pf).1, Js.Resolved ())
    | ParsedFile.AwaitRead path =>
        ParsedFile.readFile_callback (fs_readFile w path)
          (ParsedFile.readFile_call useCache pf).1
    end.
Proof.
  unfold ParsedFile.readFile.
  by destruct (ParsedFile.readFile_call useCache pf) as [this [|path]].
Qed.

(** [parsedFilesForWorkspace], document by document: the promise is the one
    [Promise.all] gives for the loads of the enumerated files, each started
    on the document the dictionary held (or a new one); a file that is
    enumerated ends up loaded, and tokenized when every load succeeded; any
    other entry is left alone. *)
Lemma parsedFilesForWorkspace_run w useCache files files' r :
  NoteParser.parsedFilesForWorkspace w useCache files = (files', r) →
  let settled :=
    NoteParser.Promise_all
      ((λ q, (Spec.load w useCache (NoteParser.deref q files)).2) <$> noteFiles w) in
  r = match settled with
      | Js.Resolved _ => Js.Resolved (noteFiles w)
      | Js.Rejected err => Js.Rejected err
      end
  ∧ (∀ q, q ∈ noteFiles w →
       files' !! q =
         Some match settled with
              | Js.Resolved _ =>
                  Spec.load_then_tokenize w useCache (NoteParser.deref q files)
              | Js.Rejected _ =>
                  (Spec.load w useCache (NoteParser.deref q files)).1
              end)
  ∧ (∀ q, q ∉ noteFiles w → files' !! q = files !! q).
Proof.
  unfold NoteParser.parsedFilesForWorkspace, mbind, NoteParser.M_bind.
  destruct (NoteParser.Array_map NoteParser.parsedFileFor (noteFiles w) files)
    as [filesA refs] eqn:HA.
  pose proof (Array_map_parsedFileFor_present _ _ _ _ HA) as HpresA.
  eapply (Array_map_acts_on (λ ref pf, (pf, ref))) in HA
    as (-> & HinA & HoutA & _); auto using parsedFileFor_acts_on.
  rewrite list_fmap_id.
  assert (∀ q, NoteParser.deref q filesA = NoteParser.deref q files) as HderefA.
  { intros q. destruct (decide (q ∈ noteFiles w)); [by apply HinA|].
    by apply deref_agree, HoutA. }
  destruct (NoteParser.Array_map _ (noteFiles w) filesA)
    as [filesB promises] eqn:HB.
  eapply (Array_map_acts_on (λ _, ParsedFile.readFile_call useCache)) in HB
    as (-> & HinB & HoutB & HpresB);
    [|intros; apply invoke_acts_on|intros; apply readFile_call_twice].
  rewrite Array_map_zip_fmap_run.
  destruct (NoteParser.Array_map _ (noteFiles w) filesB)
    as [filesC settled] eqn:HC.
  eapply (Array_map_acts_on
            (λ ref pf,
               match (ParsedFile.readFile_call useCache
                        (NoteParser.deref ref filesA)).2 with
               | ParsedFile.Immediate => (pf, Js.Resolved ())
               | ParsedFile.AwaitRead path =>
                   ParsedFile.readFile_callback (fs_readFile w path) pf
               end)) in HC as (-> & HinC & HoutC & HpresC); cycle 1.
  { intros ref. destruct (ParsedFile.readFile_call _ _).2;
      [apply mret_acts_on|apply invoke_acts_on]. }
  { intros ref pf. destruct (ParsedFile.readFile_call _ _).2;
      [done|apply readFile_callback_twice]. }
  assert (∀ q, q ∈ noteFiles w →
            NoteParser.deref q filesC =
              (Spec.load w useCache (NoteParser.deref q files)).1) as HderefC.
  { intros q Hq. unfold Spec.load.
    rewrite HinC, HinB, HderefA, readFile_call_then_settle by done.
    by destruct (ParsedFile.readFile_call _ _).2. }
  assert (((λ ref,
             (match (ParsedFile.readFile_call useCache
                       (NoteParser.deref ref filesA)).2 with
              | ParsedFile.Immediate =>
                  (NoteParser.deref ref filesB, Js.Resolved ())
              | ParsedFile.AwaitRead path =>
                  ParsedFile.readFile_callback (fs_readFile w path)
                    (NoteParser.deref ref filesB)
              end).2) <$> noteFiles w) =
          ((λ q, (Spec.load w useCache (NoteParser.deref q files)).2)
             <$> noteFiles w)) as ->.
  { apply list_fmap_ext. intros _ q Hq%list_elem_of_lookup_2. unfold Spec.load.
    rewrite HinB, HderefA, readFile_call_then_settle by done.
    by destruct (ParsedFile.readFile_call _ _).2. }
  destruct (NoteParser.Promise_all _) as [oks|err].
  - destruct (NoteParser.Array_map _ (noteFiles w) filesC)
      as [filesD units] eqn:HD.
    eapply (Array_map_acts_on
              (λ _ this, (ParsedFile.parseData useCache this, ()))) in HD
      as (_ & HinD & HoutD & HpresD);
      [|intros; apply invoke_acts_on
       |intros; simpl; by rewrite parseData_twice].
    intros [= <- <-]. split_and!; [done| |].
    + intros q Hq. rewrite deref_lookup by auto.
      unfold Spec.load_then_tokenize. by rewrite HinD, HderefC.
    + intros q Hq. by rewrite HoutD, HoutC, HoutB, HoutA.
  - intros [= <- <-]. split_and!; [done| |].
    + intros q Hq. rewrite deref_lookup by auto. by rewrite HderefC.
    + intros q Hq. by rewrite HoutC, HoutB, HoutA.
Qed.

End DictionaryFacts.

(** ** NoteParser.distinctTags *)

Section DistinctTagsFacts.
Context {K : Type} `{!ContextWordType.Enum K} `{!NoteWorkspace.Statics}.
Implicit Types (files : gmap string (ParsedFile.t K)) (pf : ParsedFile.t K).
Implicit Types (w : World).

Lemma foldl_app_concat {A B} (f : A → list B) (l : list A) (acc : list B) :
  foldl (λ acc a, acc ++ f a) acc l = acc ++ concat (f <$> l).
Proof.
  revert acc. induction l as [|a l IH]; intros acc; simpl.
  - by rewrite app_nil_r.
  - by rewrite IH, <-app_assoc.
Qed.

Lemma Promise_all_resolved {E A} (ps : list (Js.Settled E A)) :
  (∀ p, p ∈ ps → ∃ a, p = Js.Resolved a) →
  ∃ l, NoteParser.Promise_all ps = Js.Resolved l.
Proof.
  induction ps as [|p ps IH]; intros Hall; [by eexists|].
  destruct (Hall p) as [a ->]; [left|].
  destruct IH as [l Hl]; [intros; apply Hall; by right|].
  simpl. rewrite Hl. by eexists.
Qed.

Lemma load_settles w useCache pf :
  (∃ text, fs_readFile w (ParsedFile.fsPath pf) = inr text) →
  (Spec.load w useCache pf).2 = Js.Resolved ().
Proof.
  intros [text Hok]. unfold Spec.load, ParsedFile.readFile, ParsedFile.readFile_call.
  destruct (useCache && Js.truthy_string (ParsedFile.data pf)); [done|].
  simpl. by rewrite Hok.
Qed.

(** When every file enumerated can be read, the workspace loads. *)
Lemma parsedFilesForWorkspace_resolves w useCache files :
  (∀ q, q ∈ noteFiles w →
     ∃ text, fs_readFile w (ParsedFile.fsPath (NoteParser.deref q files)) = inr text) →
  ∃ files',
    NoteParser.parsedFilesForWorkspace w useCache files =
      (files', Js.Resolved (noteFiles w))
    ∧ (∀ q, q ∈ noteFiles w →
         files' !! q =
           Some (Spec.load_then_tokenize w useCache (NoteParser.deref q files)))
    ∧ (∀ q, q ∉ noteFiles w → files' !! q = files !! q).
Proof.
  intros Hok.
  destruct (NoteParser.parsedFilesForWorkspace w useCache files)
    as [files' r] eqn:Hrun.
  apply parsedFilesForWorkspace_run in Hrun as (-> & Hin & Hout).
  destruct (Promise_all_resolved
              ((λ q, (Spec.load w useCache (NoteParser.deref q files)).2)
                 <$> noteFiles w)) as [l Hl].
  { intros p (q & -> & Hq)%list_elem_of_fmap. exists ().
    by apply load_settles, Hok. }
  rewrite Hl in Hin |- *. by exists files'.
Qed.

Lemma distinctTags_run w files :
  NoteParser.distinctTags w files =
    let '(files', r) := NoteParser.parsedFilesForWorkspace w true files in
    (files',
     match r with
     | Js.Rejected err => Js.Rejected err
     | Js.Resolved pfs =>
         Js.Resolved
           (Js.StringSet.from
              (concat ((λ q, ParsedFile.tagSet (NoteParser.deref q files')) <$> pfs)))
     end).
Proof.
  unfold NoteParser.distinctTags, mbind, NoteParser.M_bind.
  destruct (NoteParser.parsedFilesForWorkspace w true files) as [files' [pfs|err]];
    [|done].
  simpl. unfold Js.StringSet.to_array. by rewrite foldl_app_concat.
Qed.

Lemma distinctTags_resolved w files files' tags :
  NoteParser.distinctTags w files = (files', Js.Resolved tags) →
  tags =
    Js.StringSet.from
      (concat ((λ q, ParsedFile.tagSet (NoteParser.deref q files')) <$> noteFiles w)).
Proof.
  rewrite distinctTags_run.
  destruct (NoteParser.parsedFilesForWorkspace w true files) as [files1 r] eqn:Hrun.
  apply parsedFilesForWorkspace_run in Hrun as (-> & _ & _).
  destruct (NoteParser.Promise_all _); [|done]. by intros [= <- <-].
Qed.

Lemma distinctTags_NoDup w files files' tags :
  NoteParser.distinctTags w files = (files', Js.Resolved tags) → NoDup tags.
Proof. intros ->%distinctTags_resolved. apply StringSet_NoDup_from. Qed.

Lemma distinctTags_elem_of w files files' tags x :
  NoteParser.distinctTags w files = (files', Js.Resolved tags) →
  x ∈ tags ↔
    ∃ q, q ∈ noteFiles w ∧ x ∈ ParsedFile.tagSet (NoteParser.deref q files').
Proof.
  intros ->%distinctTags_resolved.
  rewrite StringSet_elem_of_from, elem_of_concat. split.
  - intros (l & Hx & (q & -> & Hq)%list_elem_of_fmap). eauto.
  - intros (q & Hq & Hx). eexists. split; [done|].
    apply list_elem_of_fmap. eauto.
Qed.

Lemma distinctTags_resolves w files :
  (∀ q, q ∈ noteFiles w →
     ∃ text, fs_readFile w (ParsedFile.fsPath (NoteParser.deref q files)) = inr text) →
  ∃ files' tags,
    NoteParser.distinctTags w files = (files', Js.Resolved tags)
    ∧ ∀ q, q ∈ noteFiles w →
        files' !! q =
          Some (Spec.load_then_tokenize w true (NoteParser.deref q files)).
Proof.
  intros Hok. rewrite distinctTags_run.
  destruct (parsedFilesForWorkspace_resolves w true files Hok)
    as (files' & -> & Hin & _).
  eauto.
Qed.

Lemma tagSet_from pf :
  ParsedFile.tagSet pf =
    Js.StringSet.from
      (RefCandidate.rawText <$>
         List.filter
           (λ rc, bool_decide (RefCandidate.contextWordType rc = ContextWordType.Tag))
           (ParsedFile.refCandidates pf)).
Proof. unfold ParsedFile.tagSet, Js.StringSet.from. by rewrite foldl_fmap. Qed.

Lemma tag_texts_of_line lineNum ln :
  (ContextWordType.Tag : K) ≠ ContextWordType.WikiLink →
  RefCandidate.rawText <$>
    List.filter
      (λ rc, bool_decide (RefCandidate.contextWordType rc = ContextWordType.Tag))
      (Spec.line_candidates lineNum ln) =
  Js.matched <$> Js.matchAll ln NoteWorkspace.rxTagNoAnchors.
Proof.
  intros Hne. unfold Spec.line_candidates. rewrite List.filter_app, fmap_app.
  set (tags := Js.matchAll ln NoteWorkspace.rxTagNoAnchors).
  set (links := Js.matchAll ln NoteWorkspace.rxWikiLink).
  assert (List.filter
            (λ rc : RefCandidate.t K,
               bool_decide (RefCandidate.contextWordType rc = ContextWordType.Tag))
            (map (λ m, RefCandidate.fromMatch lineNum m ContextWordType.WikiLink)
               links) = []) as ->.
  { induction links as [|m links IH]; [done|]. simpl.
    by rewrite bool_decide_eq_false_2. }
  rewrite app_nil_r. induction tags as [|m tags IH]; [done|]. simpl.
  rewrite bool_decide_eq_true_2 by done. simpl. by f_equal.
Qed.

Lemma load_then_tokenize_new w q text :
  fs_readFile w q = inr text → text ≠ "" →
  Spec.load_then_tokenize w true (ParsedFile.new q) =
    {| ParsedFile.fsPath := q;
       ParsedFile.data := Some text;
       ParsedFile.refCandidates := Spec.candidates (Js.split_newlines text);
       ParsedFile._parsed := true |}.
Proof.
  intros Hok Hne. unfold Spec.load_then_tokenize, Spec.load.
  rewrite (readFile_success _ _ _ text) by done.
  by rewrite (parseData_fresh _ _ text).
Qed.

(** The scenario of the specification, for any tag pattern that finds the
    tags written in the two texts. *)
Lemma distinctTags_two_documents w p1 p2 :
  (ContextWordType.Tag : K) ≠ ContextWordType.WikiLink →
  noteFiles w = [p1; p2] →
  fs_readFile w p1 = inr "#a #a #b" →
  fs_readFile w p2 = inr "#b #c" →
  Js.matched <$> Js.matchAll "#a #a #b" NoteWorkspace.rxTagNoAnchors
    = ["#a"; "#a"; "#b"] →
  Js.matched <$> Js.matchAll "#b #c" NoteWorkspace.rxTagNoAnchors = ["#b"; "#c"] →
  (NoteParser.distinctTags (K:=K) w ∅).2 = Js.Resolved ["#a"; "#b"; "#c"].
Proof.
  intros Hne Hfiles Hp1 Hp2 Hm1 Hm2.
  assert (∀ q, NoteParser.deref (K:=K) q ∅ = ParsedFile.new q) as Hnew by done.
  destruct (distinctTags_resolves w ∅) as (files' & tags & Hrun & Hin).
  { intros q. rewrite Hfiles, Hnew. simpl.
    intros [->|[->|?%elem_of_nil]%elem_of_cons]%elem_of_cons; eauto; done. }
  rewrite Hrun. simpl. f_equal.
  apply distinctTags_resolved in Hrun as ->. rewrite Hfiles in Hin |- *.
  assert (∀ q text,
            q ∈ [p1; p2] → fs_readFile w q = inr text → text ≠ "" →
            Js.split_newlines text = [text] →
            ParsedFile.tagSet (NoteParser.deref q files') =
              Js.StringSet.from
                (Js.matched <$> Js.matchAll text NoteWorkspace.rxTagNoAnchors))
    as Htags.
  { intros q text Hq Hok Htext Hline.
    unfold NoteParser.deref at 1. rewrite (Hin q Hq), Hnew. simpl.
    rewrite (load_then_tokenize_new w q text), tagSet_from by done. simpl.
    rewrite Hline. unfold Spec.candidates. simpl. rewrite app_nil_r.
    by rewrite tag_texts_of_line. }
  simpl.
  rewrite (Htags p1 "#a #a #b"), (Htags p2 "#b #c"), Hm1, Hm2;
    [|(done || (left; done) || (right; left; done))..].
  by vm_compute.
Qed.

(** C9: the tag set of a document holds every raw text of its Tag candidates
    and holds it once; the tags the engine returns hold every tag of every
    enumerated document's tag set, and hold it once, and they are returned
    whenever the files can be read; two documents with the texts
    [#a #a #b] and [#b #c] give the three tags [#a], [#b], [#c]. *)
Theorem distinctTags_deduplicates :
  (∀ pf x,
     NoDup (ParsedFile.tagSet pf)
     ∧ (x ∈ ParsedFile.tagSet pf ↔
          ∃ rc, rc ∈ ParsedFile.refCandidates pf
                ∧ RefCandidate.contextWordType rc = ContextWordType.Tag
                ∧ RefCandidate.rawText rc = x))
  ∧ (∀ w files files' tags x,
       NoteParser.distinctTags w files = (files', Js.Resolved tags) →
       NoDup tags
       ∧ (x ∈ tags ↔
            ∃ q, q ∈ noteFiles w
                 ∧ x ∈ ParsedFile.tagSet (NoteParser.deref q files')))
  ∧ (∀ w files,
       (∀ q, q ∈ noteFiles w →
          ∃ text,
            fs_readFile w (ParsedFile.fsPath (NoteParser.deref q files)) = inr text) →
       ∃ files' tags, NoteParser.distinctTags w files = (files', Js.Resolved tags))
  ∧ (∀ w p1 p2,
       (ContextWordType.Tag : K) ≠ ContextWordType.WikiLink →
       noteFiles w = [p1; p2] →
       fs_readFile w p1 = inr "#a #a #b" →
       fs_readFile w p2 = inr "#b #c" →
       Js.matched <$> Js.matchAll "#a #a #b" NoteWorkspace.rxTagNoAnchors
         = ["#a"; "#a"; "#b"] →
       Js.matched <$> Js.matchAll "#b #c" NoteWorkspace.rxTagNoAnchors
         = ["#b"; "#c"] →
       (NoteParser.distinctTags (K:=K) w ∅).2 = Js.Resolved ["#a"; "#b"; "#c"]).
Proof.
  split_and!.
  - intros pf x. split; [apply NoDup_tagSet|apply elem_of_tagSet].
  - intros w files files' tags x Hrun.
    split; [by eapply distinctTags_NoDup|by eapply distinctTags_elem_of].
  - intros w files Hok.
    destruct (distinctTags_resolves w files Hok) as (files' & tags & Hrun & _).
    eauto.
  - apply distinctTags_two_documents.
Qed.

End DistinctTagsFacts.

(** ** ParsedFile.tagSet on a document whose content is gone *)

Section StaleTagFacts.
Context {K : Type} `{!ContextWordType.Enum K} `{!NoteWorkspace.Statics}.
Implicit Types (files : gmap string (ParsedFile.t K)) (pf : ParsedFile.t K).
Implicit Types (w : World).

(** Re-reading an empty file into a document that holds the empty string
    keeps its candidates. *)
Lemma load_then_tokenize_empty w useCache pf :
  ParsedFile.data pf = Some "" →
  fs_readFile w (ParsedFile.fsPath pf) = inr "" →
  Spec.load_then_tokenize w useCache pf = ParsedFile.set_parsed false pf.
Proof.
  intros Hd Hok. unfold Spec.load_then_tokenize, Spec.load.
  rewrite (readFile_success _ _ _ "").
  - rewrite parseData_empty by done. destruct pf; simpl in *. by subst.
  - rewrite Hd. apply andb_false_r.
  - done.
Qed.

(** C10: [tagSet] is a function of the stored candidates alone, so it gives
    the same set whatever the content and the parsed flag are; its members
    are exactly the raw texts of the stored Tag candidates; and when a
    document of the workspace holds the empty string, read from a file that
    is still empty, [distinctTags] returns every tag of the candidates that
    document still stores. *)
Theorem tagSet_ignores_content :
  (∀ pf d b,
     ParsedFile.tagSet (ParsedFile.set_data d (ParsedFile.set_parsed b pf)) =
       ParsedFile.tagSet pf)
  ∧ (∀ pf x,
       x ∈ ParsedFile.tagSet pf ↔
         ∃ rc, rc ∈ ParsedFile.refCandidates pf
               ∧ RefCandidate.contextWordType rc = ContextWordType.Tag
               ∧ RefCandidate.rawText rc = x)
  ∧ (∀ w files q pf,
       q ∈ noteFiles w →
       files !! q = Some pf →
       ParsedFile.data pf = Some "" →
       (∀ q', q' ∈ noteFiles w →
          ∃ text,
            fs_readFile w (ParsedFile.fsPath (NoteParser.deref q' files)) = inr text) →
       fs_readFile w (ParsedFile.fsPath pf) = inr "" →
       ∃ files' tags,
         NoteParser.distinctTags w files = (files', Js.Resolved tags)
         ∧ ∀ x, x ∈ ParsedFile.tagSet pf → x ∈ tags).
Proof.
  split_and!.
  - done.
  - apply elem_of_tagSet.
  - intros w files q pf Hq Hpf Hd Hok Hempty.
    destruct (distinctTags_resolves w files Hok) as (files' & tags & Hrun & Hin).
    exists files', tags. split; [done|]. intros x Hx.
    apply (distinctTags_elem_of _ _ _ _ x Hrun). exists q. split; [done|].
    unfold NoteParser.deref at 1. rewrite (Hin q Hq). simpl.
    unfold NoteParser.deref. rewrite Hpf. simpl.
    by rewrite load_then_tokenize_empty.
Qed.

End StaleTagFacts.

(** ** NoteParser.search *)

Section SearchFacts.
Context {K : Type} `{!ContextWordType.Enum K} `{!NoteWorkspace.Statics}.
Implicit Types (files : gmap string (ParsedFile.t K)) (cw : ContextWord K).
Implicit Types (w : World).

Lemma ContextWord_set_type_twice (k : K) cw :
  ContextWord_set_type k (ContextWord_set_type k cw) = ContextWord_set_type k cw.
Proof. done. Qed.

Lemma ContextWord_set_type_same cw : ContextWord_set_type (type cw) cw = cw.
Proof. by destruct cw. Qed.

Lemma search_Tag w cw files :
  type cw = ContextWordType.Tag →
  NoteParser.search w cw files =
    let '(files', r) := NoteParser.search_locations w cw files in
    (files', (cw, r)).
Proof.
  intros HTag. unfold NoteParser.search.
  by rewrite bool_decide_eq_true_2.
Qed.

Lemma search_not_Tag w cw files :
  type cw ≠ ContextWordType.Tag →
  NoteParser.search w cw files =
    let cw' := ContextWord_set_type ContextWordType.WikiLink cw in
    if ContextWordType.toBoolean (ContextWordType.WikiLink : K) then
      let '(files', r) := NoteParser.search_locations w cw' files in
      (files', (cw', r))
    else (files, (cw', Js.Resolved [])).
Proof.
  intros HTag. unfold NoteParser.search.
  rewrite bool_decide_eq_false_2 by done. simpl.
  by destruct (ContextWordType.toBoolean _).
Qed.

(** With a truthy WikiLink member the branch of [search] that returns the
    empty list is never taken: every search loads the workspace. *)
Lemma search_always_loads w cw files :
  ContextWordType.toBoolean (ContextWordType.WikiLink : K) = true →
  NoteParser.search w cw files =
    let cw' :=
      if bool_decide (type cw = ContextWordType.Tag) then cw
      else ContextWord_set_type ContextWordType.WikiLink cw in
    let '(files', r) := NoteParser.search_locations w cw' files in
    (files', (cw', r)).
Proof.
  intros Htrue. case_bool_decide as HTag.
  - by rewrite search_Tag.
  - by rewrite search_not_Tag, Htrue.
Qed.

(** With a falsy WikiLink member no query but a Tag query is answered. *)
Lemma search_falsy_WikiLink w cw files :
  ContextWordType.toBoolean (ContextWordType.WikiLink : K) = false →
  type cw ≠ ContextWordType.Tag →
  NoteParser.search w cw files =
    (files, (ContextWord_set_type ContextWordType.WikiLink cw, Js.Resolved [])).
Proof. intros Hfalse HTag. by rewrite search_not_Tag, Hfalse. Qed.

(** C4: a search for a Tag hands the context word back as it was; a search
    for any other kind hands it back with its kind overwritten by WikiLink,
    and, WikiLink being a truthy member of the enum, loads the workspace and
    matches exactly as the search for that overwritten context word does. *)
Theorem search_overwrites_kind w cw files :
  (type cw = ContextWordType.Tag → (NoteParser.search w cw files).2.1 = cw)
  ∧ (type cw ≠ ContextWordType.Tag →
       (NoteParser.search w cw files).2.1 =
         ContextWord_set_type ContextWordType.WikiLink cw
       ∧ (ContextWordType.toBoolean (ContextWordType.WikiLink : K) = true →
            NoteParser.search w cw files =
              NoteParser.search w
                (ContextWord_set_type ContextWordType.WikiLink cw) files
            ∧ NoteParser.search w cw files =
                let cw' := ContextWord_set_type ContextWordType.WikiLink cw in
                let '(files', r) := NoteParser.search_locations w cw' files in
                (files', (cw', r)))).
Proof.
  split.
  - intros HTag. rewrite search_Tag by done.
    by destruct (NoteParser.search_locations w cw files).
  - intros HTag. rewrite search_not_Tag by done. simpl. split.
    + destruct (ContextWordType.toBoolean _); [|done].
      by destruct (NoteParser.search_locations _ _ _).
    + intros Htrue. rewrite Htrue. split; [|done].
      set (cw' := ContextWord_set_type ContextWordType.WikiLink cw).
      destruct (decide (type cw' = ContextWordType.Tag)) as [Heq|Hne].
      * by rewrite search_Tag.
      * rewrite search_not_Tag by done. simpl.
        unfold cw'. by rewrite ContextWord_set_type_twice, Htrue.
Qed.

End SearchFacts.

(** ** The definitions run on the concrete configuration *)

Section Scenarios.
Import Fixture.

(** C1 (the code departs from it): a search whose context word has the kind
    [Null], which is neither Tag nor WikiLink, does not come back empty: its
    kind is overwritten by WikiLink, the workspace is loaded, and the
    location of the wiki-link [[[b]]] in [/a.md] is returned. *)
Theorem search_unsupported_kind_returns_hits :
  type (query Null "b") ≠ ContextWordType.Tag
  ∧ type (query Null "b") ≠ ContextWordType.WikiLink
  ∧ (NoteParser.search linking_world (query Null "b") no_files).2 =
      (query WikiLink "b",
       Js.Resolved
         [ {| vscode.uri := "/a.md";
              vscode.range :=
                {| r_start := {| line := 0; character := 4 |};
                   r_end := {| line := 0; character := 9 |} |} |} ]).
Proof. split_and!; [discriminate..|by vm_compute]. Qed.

(** C2 (the code departs from it): after a note holding the tag [#a] has
    been indexed and is then re-loaded with the empty string as its content,
    [parseData] returns before it resets the candidates: the document still
    stores the candidate of [#a], its tag set and the engine's
    [distinctTags] still report [#a]; only the location query is empty. *)
Theorem parseData_empty_keeps_stale_candidates :
  reindexed !! "/a.md" =
    Some {| ParsedFile.fsPath := "/a.md";
            ParsedFile.data := Some "";
            ParsedFile.refCandidates :=
              [ {| RefCandidate.rawText := "#a";
                   RefCandidate.range :=
                     {| r_start := {| line := 0; character := 0 |};
                        r_end := {| line := 0; character := 2 |} |};
                   RefCandidate.contextWordType := Tag |} ];
            ParsedFile._parsed := false |}
  ∧ ParsedFile.tagSet (NoteParser.deref "/a.md" reindexed) = ["#a"]
  ∧ (NoteParser.distinctTags emptied_world reindexed).2 = Js.Resolved ["#a"]
  ∧ (NoteParser.search emptied_world (query Tag "a") reindexed).2.2 = Js.Resolved []
  ∧ ParsedFile.refCandidates
      (ParsedFile.parseData false (ParsedFile.set_data (Some "") tag_document)) =
    ParsedFile.refCandidates tag_document
  ∧ ParsedFile.refCandidates tag_document ≠ [].
Proof. split_and!; [by vm_compute..|discriminate]. Qed.

(** On a document whose content is [''], [readFile(true)] resets the parsed
    flag, hands the path to [fs.readFile] and replaces the content by what
    the file holds now. *)
Lemma readFile_cached_empty_content_rereads :
  ParsedFile.data blank_document = Some ""
  ∧ ParsedFile.readFile_call true blank_document =
      (ParsedFile.set_parsed false blank_document, ParsedFile.AwaitRead "/a.md")
  ∧ ParsedFile.readFile tagged_world true blank_document =
      ({| ParsedFile.fsPath := "/a.md"; ParsedFile.data := Some "#a";
          ParsedFile.refCandidates := []; ParsedFile._parsed := false |},
       Js.Resolved ())
  ∧ ParsedFile.readFile tagged_world true blank_document ≠
      (blank_document, Js.Resolved ()).
Proof. split_and!; [by vm_compute..|]. vm_compute. discriminate. Qed.

(** C3 (the code departs from it): the document that reading an empty note
    gives holds the content [''], yet [readFile(true)] on it is no cache
    hit: the call hands the path to [fs.readFile], and the content is
    replaced by what the file holds by then; the same call on the document
    indexed with a non-empty text resolves with the document as it is. *)
Theorem readFile_cached_empty_document_rereads :
  ParsedFile.data emptied_document = Some ""
  ∧ ParsedFile.readFile_call true emptied_document =
      (emptied_document, ParsedFile.AwaitRead "/a.md")
  ∧ ParsedFile.readFile retagged_world true emptied_document =
      (ParsedFile.set_data (Some "#z") emptied_document, Js.Resolved ())
  ∧ ParsedFile.readFile retagged_world true emptied_document ≠
      (emptied_document, Js.Resolved ())
  ∧ ParsedFile.readFile_call true indexed_document =
      (indexed_document, ParsedFile.Immediate)
  ∧ ParsedFile.readFile retagged_world true indexed_document =
      (indexed_document, Js.Resolved ()).
Proof.
  split_and!; by vm_compute.
Qed.

Lemma readFile_cache_hit_nonempty_witness :
  Js.truthy_string (ParsedFile.data tag_document) = true
  ∧ ParsedFile.readFile_call true tag_document = (tag_document, ParsedFile.Immediate)
  ∧ ParsedFile.readFile emptied_world true tag_document =
      (tag_document, Js.Resolved ()).
Proof.
  split; [reflexivity|].
  apply (readFile_cache_hit_nonempty tag_document emptied_world). reflexivity.
Defined.

Lemma search_overwrites_kind_witness :
  type (query Null "b") ≠ ContextWordType.Tag
  ∧ ContextWordType.toBoolean (ContextWordType.WikiLink : Kind) = true
  ∧ (NoteParser.search linking_world (query Null "b") no_files).2.1 =
      ContextWord_set_type ContextWordType.WikiLink (query Null "b")
  ∧ NoteParser.search linking_world (query Null "b") no_files =
      NoteParser.search linking_world
        (ContextWord_set_type ContextWordType.WikiLink (query Null "b")) no_files.
Proof.
  split; [discriminate|]. split; [reflexivity|].
  destruct (search_overwrites_kind linking_world (query Null "b") no_files)
    as [_ Hother].
  destruct Hother as [Hkind Hrun]; [discriminate|].
  destruct Hrun as [Hsame _]; [reflexivity|].
  exact (conj Hkind Hsame).
Defined.

Lemma matchesContextWord_tag_exact_witness :
  type (query Tag "a") = ContextWordType.Tag
  ∧ (∀ c, c ∈ ParsedFile.refCandidates tag_document →
       RefCandidate.matchesContextWord c (query Tag "a") = true)
  ∧ (∀ c, c ∈ ParsedFile.refCandidates tag_document →
       RefCandidate.matchesContextWord c (query Tag "A") = false).
Proof.
  split; [reflexivity|]. split.
  - intros c ->%list_elem_of_singleton.
    apply (matchesContextWord_tag_exact _ (query Tag "a")); [reflexivity|].
    split; reflexivity.
  - intros c ->%list_elem_of_singleton.
    apply (matchesContextWord_tag_exact _ (query Tag "A")); [reflexivity|].
    discriminate.
Defined.

Lemma parseData_tokenizes_by_line_witness :
  ParsedFile.data restocked_document = Some two_line_text
  ∧ two_line_text ≠ ""
  ∧ false && ParsedFile._parsed restocked_document = false
  ∧ ParsedFile.refCandidates restocked_document ≠ []
  ∧ Js.split_newlines two_line_text = ["[[b]] #t"; "#u [[c]]"]
  ∧ (∀ lines,
       Spec.split_at_newlines two_line_text lines ↔
         lines = Js.split_newlines two_line_text)
  ∧ ParsedFile.refCandidates (ParsedFile.parseData false restocked_document) =
      concat (imap Spec.line_candidates (Js.split_newlines two_line_text))
  ∧ ParsedFile.refCandidates (ParsedFile.parseData false restocked_document) =
      [ RefCandidate.fromMatch 0 {| Js.index := Some 6; Js.matched := "#t" |} Tag;
        RefCandidate.fromMatch 0 {| Js.index := Some 0; Js.matched := "[[b]]" |}
          WikiLink;
        RefCandidate.fromMatch 1 {| Js.index := Some 0; Js.matched := "#u" |} Tag;
        RefCandidate.fromMatch 1 {| Js.index := Some 3; Js.matched := "[[c]]" |}
          WikiLink ]
  ∧ StronglySorted Spec.emitted_before
      (ParsedFile.refCandidates (ParsedFile.parseData false restocked_document))
  ∧ ParsedFile._parsed (ParsedFile.parseData false restocked_document) = true.
Proof.
  destruct (parseData_tokenizes_by_line false restocked_document two_line_text)
    as (Hcut & Hcands & _ & Hsorted & Hparsed & _);
    [reflexivity|discriminate|reflexivity|].
  split_and!; [reflexivity|discriminate|reflexivity|discriminate|reflexivity
              |exact Hcut|exact Hcands|reflexivity|exact Hsorted|exact Hparsed].
Defined.

Lemma readFile_failure_keeps_content_witness :
  ParsedFile.data indexed_document = Some "#a"
  ∧ ParsedFile.refCandidates indexed_document ≠ []
  ∧ ParsedFile._parsed indexed_document = true
  ∧ false && Js.truthy_string (ParsedFile.data indexed_document) = false
  ∧ fs_readFile vanished_world (ParsedFile.fsPath indexed_document) = inl ENOENT
  ∧ ∃ pf',
      ParsedFile.readFile vanished_world false indexed_document =
        (pf', Js.Rejected ENOENT)
      ∧ ParsedFile.data pf' = ParsedFile.data indexed_document
      ∧ ParsedFile.refCandidates pf' = ParsedFile.refCandidates indexed_document
      ∧ ParsedFile.fsPath pf' = ParsedFile.fsPath indexed_document
      ∧ ParsedFile._parsed pf' = false.
Proof.
  split_and!; [reflexivity|discriminate|reflexivity|reflexivity|reflexivity|].
  apply (readFile_failure_keeps_content vanished_world false indexed_document
           ENOENT); reflexivity.
Defined.

Lemma parseData_cache_reuse_idempotent_witness :
  ParsedFile._parsed tag_document = true
  ∧ ParsedFile.parseData true tag_document = tag_document
  ∧ ParsedFile.parseData true (ParsedFile.parseData false tag_document) =
      ParsedFile.parseData false tag_document.
Proof.
  split; [reflexivity|].
  destruct (parseData_cache_reuse_idempotent false tag_document)
    as (Htwice & _ & Hhit).
  split; [apply Hhit; reflexivity|exact Htwice].
Defined.

Lemma distinctTags_deduplicates_witness :
  (NoteParser.distinctTags two_notes no_files).2 = Js.Resolved ["#a"; "#b"; "#c"].
Proof.
  destruct (distinctTags_deduplicates (K:=Kind)) as (_ & _ & _ & Hscenario).
  apply (Hscenario two_notes "/a.md" "/b.md"); [discriminate|reflexivity..].
Defined.

Lemma tagSet_ignores_content_witness :
  reindexed !! "/a.md" = Some (NoteParser.deref "/a.md" reindexed)
  ∧ ParsedFile.data (NoteParser.deref "/a.md" reindexed) = Some ""
  ∧ ParsedFile.tagSet (NoteParser.deref "/a.md" reindexed) = ["#a"]
  ∧ ∃ files' tags,
      NoteParser.distinctTags emptied_world reindexed = (files', Js.Resolved tags)
      ∧ ∀ x, x ∈ ParsedFile.tagSet (NoteParser.deref "/a.md" reindexed) → x ∈ tags.
Proof.
  split; [reflexivity|]. split; [reflexivity|]. split; [reflexivity|].
  destruct (tagSet_ignores_content (K:=Kind)) as (_ & _ & Hstale).
  apply (Hstale emptied_world reindexed "/a.md").
  - left.
  - reflexivity.
  - reflexivity.
  - intros q' ->%list_elem_of_singleton. exists "". reflexivity.
  - reflexivity.
Defined.

End Scenarios.

(** ** Candidates and location queries of one document *)

Section DocumentFacts.
Context {K : Type} `{!ContextWordType.Enum K} `{!NoteWorkspace.Statics}.
Implicit Types (pf this : ParsedFile.t K) (cw : ContextWord K).
Implicit Types (c : RefCandidate.t K).

Lemma elem_of_candidates c lines :
  c ∈ Spec.candidates lines ↔
    ∃ i ln, lines !! i = Some ln ∧ c ∈ Spec.line_candidates i ln.
Proof.
  unfold Spec.candidates. rewrite elem_of_concat. split.
  - intros (block & Hc & (i & ln & -> & Hln)%elem_of_lookup_imap). eauto.
  - intros (i & ln & Hln & Hc). eexists. split; [done|].
    by apply elem_of_lookup_imap_2.
Qed.

Lemma elem_of_line_candidates_inv c lineNum ln :
  c ∈ Spec.line_candidates lineNum ln ↔
    (∃ m, m ∈ Js.matchAll ln NoteWorkspace.rxTagNoAnchors
          ∧ c = RefCandidate.fromMatch lineNum m ContextWordType.Tag)
    ∨ (∃ m, m ∈ Js.matchAll ln NoteWorkspace.rxWikiLink
            ∧ c = RefCandidate.fromMatch lineNum m ContextWordType.WikiLink).
Proof.
  unfold Spec.line_candidates. rewrite elem_of_app, !list_elem_of_fmap.
  split; (intros [(m & ? & ?)|(m & ? & ?)]; [left|right]; eauto).
Qed.

Lemma fromMatch_well_ranged lines lineNum m (k : K) :
  lineNum < lines →
  Index.well_ranged lines (RefCandidate.fromMatch lineNum m k).
Proof. intros Hlt. by split_and!. Qed.

Lemma candidates_well_ranged lines c :
  c ∈ Spec.candidates lines → Index.well_ranged (length lines) c.
Proof.
  intros (i & ln & Hln%lookup_lt_Some & Hc)%elem_of_candidates.
  apply elem_of_line_candidates_inv in Hc as [(m & _ & ->)|(m & _ & ->)];
    by apply fromMatch_well_ranged.
Qed.

Lemma Range_well_ranged lines c :
  Index.well_ranged lines c →
  vscode.Range (r_start (RefCandidate.range c)) (r_end (RefCandidate.range c)) =
    RefCandidate.range c.
Proof.
  intros (Hline & _ & Hchar). unfold vscode.Range, vscode.isBefore.
  destruct (RefCandidate.range c) as [[l1 c1] [l2 c2]]. simpl in *. subst l2.
  rewrite Nat.ltb_irrefl, Nat.eqb_refl. simpl.
  by rewrite (proj2 (Nat.ltb_ge _ _)) by lia.
Qed.

(** The ranges a location query gives are those of the matching candidates
    of a document with content; the test of the kind adds nothing to the
    match. *)
Lemma rawRangesForWord_filter this o :
  ParsedFile._rawRangesForWord this o =
    match o with
    | Some cw =>
        if Js.truthy_string (ParsedFile.data this) then
          map RefCandidate.range
            (List.filter (λ c, RefCandidate.matchesContextWord c cw)
               (ParsedFile.refCandidates this))
        else []
    | None => []
    end.
Proof.
  unfold ParsedFile._rawRangesForWord.
  destruct (ParsedFile.data this) as [[|a d]|]; simpl;
    [by destruct o|..|by destruct o].
  rewrite ?bool_decide_eq_false_2 by done.
  destruct o as [cw|]; [|done].
  case_bool_decide as Hkind; [done|]. simpl.
  symmetry. rewrite (List.filter_ext_in _ (λ _, false)), List.filter_false;
    [done|].
  intros c _. destruct (RefCandidate.matchesContextWord c cw) eqn:Hm; [|done].
  apply matchesContextWord_true in Hm as (_ & [[HTag _]|(_ & HWiki & _)]);
    destruct Hkind; rewrite ?HTag, ?HWiki; [left|right; left].
Qed.

(** X1: every candidate that a tokenizing [parseData] stores lies on one
    line of the text, at a line number below the number of lines, and its
    range is as wide as its raw text; [vscode.Range] therefore never swaps
    the ends, and [vscodeRangesForWord] gives the very ranges of
    [_rawRangesForWord]. *)
Theorem parseData_candidates_well_ranged useCache this d :
  ParsedFile.data this = Some d → d ≠ "" →
  useCache && ParsedFile._parsed this = false →
  Forall (Index.well_ranged (length (Js.split_newlines d)))
    (ParsedFile.refCandidates (ParsedFile.parseData useCache this))
  ∧ ∀ o,
      ParsedFile.vscodeRangesForWord (ParsedFile.parseData useCache this) o =
        ParsedFile._rawRangesForWord (ParsedFile.parseData useCache this) o.
Proof.
  intros Hd Hne Hc. rewrite (parseData_fresh _ _ d) by done.
  assert (Forall (Index.well_ranged (length (Js.split_newlines d)))
            (Spec.candidates (K:=K) (Js.split_newlines d))) as Hall.
  { apply Forall_forall. intros c. apply candidates_well_ranged. }
  split; [exact Hall|]. intros o.
  unfold ParsedFile.vscodeRangesForWord. rewrite rawRangesForWord_filter.
  destruct o as [cw|]; [|done]. destruct d as [|a d]; [done|]. simpl.
  rewrite map_map. apply map_ext_in. intros c [Hin _]%filter_In. simpl.
  apply list_elem_of_In in Hin.
  by eapply Range_well_ranged, candidates_well_ranged.
Qed.

(** X2: a location query answers with a range exactly when the document
    holds a non-empty text, the query is not null, and the range is that of
    a stored candidate the query matches; a null query, a kind that is
    neither Tag nor WikiLink, and a document that is unloaded or empty all
    give no range. *)
Theorem rawRangesForWord_exactly_matches this o r :
  r ∈ ParsedFile._rawRangesForWord this o ↔
    Js.truthy_string (ParsedFile.data this) = true
    ∧ ∃ cw c,
        o = Some cw
        ∧ c ∈ ParsedFile.refCandidates this
        ∧ RefCandidate.matchesContextWord c cw = true
        ∧ (type cw = ContextWordType.Tag ∨ type cw = ContextWordType.WikiLink)
        ∧ RefCandidate.range c = r.
Proof.
  rewrite rawRangesForWord_filter. destruct o as [cw|].
  - destruct (Js.truthy_string (ParsedFile.data this)).
    + rewrite list_elem_of_In, in_map_iff. split.
      * intros (c & <- & [Hin Hm]%filter_In). split; [done|].
        exists cw, c. rewrite list_elem_of_In. split_and!; try done.
        apply matchesContextWord_true in Hm as (_ & [[? _]|(_ & ? & _)]); auto.
      * intros (_ & cw' & c & [= <-] & Hin & Hm & _ & <-).
        exists c. split; [done|]. apply filter_In.
        by rewrite <-list_elem_of_In.
    + split; [by intros ?%elem_of_nil|]. by intros [? _].
  - split; [by intros ?%elem_of_nil|]. by intros (_ & ? & ? & ? & _).
Qed.

(** X3: reading a non-empty file with [readFile(false)] and then calling
    [parseData(true)] gives the tokenization of the new text whatever the
    document held before: the read resets the parsed flag, so the cached
    parse is not taken for a parse of the new content. *)
Theorem readFile_then_parseData_retokenizes w this text :
  fs_readFile w (ParsedFile.fsPath this) = inr text → text ≠ "" →
  ParsedFile.parseData true (ParsedFile.readFile w false this).1 =
    Index.tokenized (ParsedFile.fsPath this) text.
Proof.
  intros Hok Hne. rewrite (readFile_success _ _ _ text) by done. simpl.
  by rewrite (parseData_fresh _ _ text).
Qed.

End DocumentFacts.

(** ** The order of the tags *)

Section TagOrderFacts.
Context {K : Type} `{!ContextWordType.Enum K} `{!NoteWorkspace.Statics}.
Implicit Types (pf this : ParsedFile.t K) (l s : list string).

Lemma StringSet_foldl_first_occurrences l s :
  foldl Js.StringSet.add s l =
    s ++ filter (λ y, y ∉ s) (Index.first_occurrences l).
Proof.
  revert s. induction l as [|x l IH]; intros s; simpl.
  - by rewrite filter_nil, app_nil_r.
  - rewrite IH. unfold Js.StringSet.add. case_decide as Hx.
    + rewrite filter_cons_False by (intros Hn; by apply Hn).
      rewrite list_filter_filter. f_equal. apply list_filter_iff.
      intros y. split; [|tauto]. intros Hy. split; [done|]. by intros ->.
    + rewrite filter_cons_True by done. rewrite <-app_assoc. simpl.
      do 2 f_equal. rewrite list_filter_filter. apply list_filter_iff.
      intros y. rewrite elem_of_app, list_elem_of_singleton. tauto.
Qed.

Lemma StringSet_from_first_occurrences l :
  Js.StringSet.from l = Index.first_occurrences l.
Proof.
  unfold Js.StringSet.from, Js.StringSet.empty.
  rewrite StringSet_foldl_first_occurrences. simpl.
  induction (Index.first_occurrences l) as [|y k IH]; [done|].
  rewrite filter_cons_True by apply not_elem_of_nil. by rewrite IH.
Qed.

Lemma tag_texts_of_candidates_from i lines :
  (ContextWordType.Tag : K) ≠ ContextWordType.WikiLink →
  RefCandidate.rawText <$>
    List.filter
      (λ rc, bool_decide (RefCandidate.contextWordType rc = ContextWordType.Tag))
      (concat (imap (λ j, Spec.line_candidates (i + j)) lines)) =
  concat ((λ ln, Js.matched <$> Js.matchAll ln NoteWorkspace.rxTagNoAnchors)
            <$> lines).
Proof.
  intros Hne. revert i. induction lines as [|ln lines IH]; intros i; [done|].
  rewrite imap_cons, fmap_cons, !List.concat_cons, List.filter_app, fmap_app.
  rewrite tag_texts_of_line by done. f_equal.
  rewrite <-(IH (S i)). do 3 f_equal. apply imap_ext.
  intros j ? _. simpl. f_equal. lia.
Qed.

(** X4: the tags of a document come in the order in which they first occur
    among its Tag candidates, and the tags the engine returns in the order
    in which they first occur when the tag sets of the enumerated documents
    are put one after the other; no later repetition moves a tag. *)
Theorem distinctTags_first_seen_order :
  (∀ pf,
     ParsedFile.tagSet pf =
       Index.first_occurrences
         (RefCandidate.rawText <$>
            List.filter
              (λ rc, bool_decide
                       (RefCandidate.contextWordType rc = ContextWordType.Tag))
              (ParsedFile.refCandidates pf)))
  ∧ (∀ w files files' tags,
       NoteParser.distinctTags w files = (files', Js.Resolved tags) →
       tags =
         Index.first_occurrences
           (concat ((λ q, ParsedFile.tagSet (NoteParser.deref q files'))
                      <$> noteFiles w))).
Proof.
  split.
  - intros pf. by rewrite tagSet_from, StringSet_from_first_occurrences.
  - intros w files files' tags ->%distinctTags_resolved.
    apply StringSet_from_first_occurrences.
Qed.

(** X5: the tag set of a document tokenized from a text holds the texts the
    tag pattern matched, line after line and match after match, each where
    it first occurs; what the wiki-link pattern matched is no tag. *)
Theorem tagSet_of_tokenized path text :
  (ContextWordType.Tag : K) ≠ ContextWordType.WikiLink →
  ParsedFile.tagSet (Index.tokenized path text) =
    Index.first_occurrences
      (concat ((λ ln, Js.matched <$> Js.matchAll ln NoteWorkspace.rxTagNoAnchors)
                 <$> Js.split_newlines text)).
Proof.
  intros Hne. rewrite tagSet_from, StringSet_from_first_occurrences. simpl.
  unfold Spec.candidates.
  by rewrite <-(tag_texts_of_candidates_from 0) by done.
Qed.

End TagOrderFacts.

(** ** The dictionary under the cache operations *)

Section CacheFacts.
Context {K : Type} `{!ContextWordType.Enum K} `{!NoteWorkspace.Statics}.
Implicit Types (files : gmap string (ParsedFile.t K)) (pf : ParsedFile.t K).
Implicit Types (w : World) (p q : string) (cw : ContextWord K).

Lemma readFile_fsPath w useCache pf :
  ParsedFile.fsPath (ParsedFile.readFile w useCache pf).1 = ParsedFile.fsPath pf.
Proof.
  unfold ParsedFile.readFile, ParsedFile.readFile_call.
  destruct (useCache && _); [done|]. simpl. by destruct (fs_readFile w _).
Qed.

Lemma deref_fsPath q files :
  Index.keyed_by_path files → ParsedFile.fsPath (NoteParser.deref q files) = q.
Proof.
  intros Hkey. unfold NoteParser.deref.
  destruct (files !! q) as [pf|] eqn:Hq; [by apply Hkey|done].
Qed.

Lemma parsedFileFor_run p files :
  NoteParser.parsedFileFor p files = (<[p := NoteParser.deref p files]> files, p).
Proof. unfold NoteParser.parsedFileFor, NoteParser.deref. by destruct (files !! p). Qed.

(** [updateCacheFor], as one update of the entry: the document is read
    again, and tokenized again when the read succeeded. *)
Lemma updateCacheFor_run w p files :
  NoteParser.updateCacheFor w p files =
    (<[p := match ParsedFile.readFile w false (NoteParser.deref p files) with
            | (pf, Js.Resolved _) => ParsedFile.parseData false pf
            | (pf, Js.Rejected _) => pf
            end]> files, ()).
Proof.
  unfold NoteParser.updateCacheFor, mbind, NoteParser.M_bind.
  rewrite parsedFileFor_run. unfold NoteParser.invoke at 1.
  rewrite deref_insert. unfold ParsedFile.readFile, ParsedFile.readFile_call.
  simpl. unfold NoteParser.invoke at 1. rewrite deref_insert.
  destruct (fs_readFile w _) as [err|text]; simpl.
  - by rewrite !insert_insert_eq.
  - unfold NoteParser.invoke, NoteParser.modify. rewrite !deref_insert.
    by rewrite !insert_insert_eq.
Qed.

Lemma search_locations_state w cw files :
  (NoteParser.search_locations w cw files).1 =
    (NoteParser.parsedFilesForWorkspace w true files).1.
Proof.
  unfold NoteParser.search_locations, mbind, NoteParser.M_bind.
  by destruct (NoteParser.parsedFilesForWorkspace w true files) as [files' [?|?]].
Qed.

Lemma search_state w cw files :
  (NoteParser.search w cw files).1 = files
  ∨ (NoteParser.search w cw files).1 =
      (NoteParser.parsedFilesForWorkspace w true files).1.
Proof.
  unfold NoteParser.search. case_bool_decide.
  - right. unfold mbind, NoteParser.M_bind.
    rewrite <-(search_locations_state w cw).
    by destruct (NoteParser.search_locations w cw files).
  - simpl. destruct (ContextWordType.toBoolean _); [right|by left].
    unfold mbind, NoteParser.M_bind.
    rewrite <-(search_locations_state w
                 (ContextWord_set_type ContextWordType.WikiLink cw)).
    by destruct (NoteParser.search_locations w _ files).
Qed.

Lemma parsedFilesForWorkspace_keyed w useCache files :
  Index.keyed_by_path files →
  Index.keyed_by_path (NoteParser.parsedFilesForWorkspace w useCache files).1.
Proof.
  intros Hkey.
  destruct (NoteParser.parsedFilesForWorkspace w useCache files)
    as [files' r] eqn:Hrun.
  apply parsedFilesForWorkspace_run in Hrun as (_ & Hin & Hout).
  intros q pf. simpl. destruct (decide (q ∈ noteFiles w)) as [Hq|Hq].
  - rewrite (Hin q Hq). intros [= <-].
    destruct (NoteParser.Promise_all _).
    + unfold Spec.load_then_tokenize, Spec.load.
      by rewrite parseData_fsPath, readFile_fsPath, deref_fsPath.
    + unfold Spec.load. by rewrite readFile_fsPath, deref_fsPath.
  - rewrite (Hout q Hq). apply Hkey.
Qed.

Lemma updateCacheFor_keyed w p files :
  Index.keyed_by_path files →
  Index.keyed_by_path (NoteParser.updateCacheFor w p files).1.
Proof.
  intros Hkey. rewrite updateCacheFor_run. simpl. intros q pf.
  destruct (decide (p = q)) as [->|Hne].
  - rewrite lookup_insert_eq. intros [= <-].
    pose proof (readFile_fsPath w false (NoteParser.deref q files)) as Hfs.
    destruct (ParsedFile.readFile w false _) as [pf' [[]|err]]; simpl in *.
    + by rewrite parseData_fsPath, Hfs, deref_fsPath.
    + by rewrite Hfs, deref_fsPath.
  - rewrite lookup_insert_ne by done. apply Hkey.
Qed.

(** X6: every operation of the engine keeps each document stored under its
    own path: if the dictionary has that form before a call of
    [parsedFileFor], [parsedFilesForWorkspace], [hydrateCache],
    [updateCacheFor], [clearCacheFor], [distinctTags], [search] or
    [searchBacklinksFor], it has it after the call. *)
Theorem keyed_by_path_preserved w useCache p cw files :
  Index.keyed_by_path files →
  Index.keyed_by_path (NoteParser.parsedFileFor p files).1
  ∧ Index.keyed_by_path (NoteParser.parsedFilesForWorkspace w useCache files).1
  ∧ Index.keyed_by_path (NoteParser.hydrateCache w files).1
  ∧ Index.keyed_by_path (NoteParser.updateCacheFor w p files).1
  ∧ Index.keyed_by_path (NoteParser.clearCacheFor p files).1
  ∧ Index.keyed_by_path (NoteParser.distinctTags w files).1
  ∧ Index.keyed_by_path (NoteParser.search w cw files).1
  ∧ Index.keyed_by_path (NoteParser.searchBacklinksFor w p files).1.
Proof.
  intros Hkey. split_and!.
  - rewrite parsedFileFor_run. simpl. intros q pf.
    destruct (decide (p = q)) as [->|Hne].
    + rewrite lookup_insert_eq. intros [= <-]. by apply deref_fsPath.
    + rewrite lookup_insert_ne by done. apply Hkey.
  - by apply parsedFilesForWorkspace_keyed.
  - by apply parsedFilesForWorkspace_keyed.
  - by apply updateCacheFor_keyed.
  - simpl. intros q pf [_ Hq]%lookup_delete_Some. by apply Hkey.
  - rewrite distinctTags_run.
    pose proof (parsedFilesForWorkspace_keyed w true files Hkey) as Hk.
    by destruct (NoteParser.parsedFilesForWorkspace w true files).
  - destruct (search_state w cw files) as [-> | ->]; [done|].
    by apply parsedFilesForWorkspace_keyed.
  - unfold NoteParser.searchBacklinksFor, mbind, NoteParser.M_bind.
    set (cw' := {| type := ContextWordType.WikiLink; word := p;
                   hasExtension := true; cw_range := None |}).
    pose proof (search_state w cw' files) as Hs.
    destruct (NoteParser.search w cw' files) as [files' r]. simpl in *.
    destruct Hs as [-> | ->]; [done|].
    by apply parsedFilesForWorkspace_keyed.
Qed.

Lemma load_then_tokenize_reread w pf text :
  fs_readFile w (ParsedFile.fsPath pf) = inr text → text ≠ "" →
  Spec.load_then_tokenize w false pf = Index.tokenized (ParsedFile.fsPath pf) text.
Proof.
  intros Hok Hne. unfold Spec.load_then_tokenize, Spec.load.
  rewrite (readFile_success _ _ _ text) by done.
  by rewrite (parseData_fresh _ _ text).
Qed.

Lemma load_cached w pf :
  Js.truthy_string (ParsedFile.data pf) = true →
  Spec.load w true pf = (pf, Js.Resolved ()).
Proof.
  intros Hd. unfold Spec.load, ParsedFile.readFile.
  by rewrite readFile_call_cached.
Qed.

Lemma keyed_by_path_delete p files :
  Index.keyed_by_path files → Index.keyed_by_path (delete p files).
Proof. intros Hkey q pf [_ Hq]%lookup_delete_Some. by apply Hkey. Qed.

(** X7: [parsedFileFor] gets or creates: a path that has an entry gets that
    entry and the dictionary stays as it is; a path that has none gets a new
    document without content, candidates or parsed flag, stored under the
    path; asking again changes nothing more; and after [clearCacheFor] the
    path has no entry, so that the next [parsedFileFor] starts from a new
    document.  No other path is touched by either. *)
Theorem parsedFileFor_gets_or_creates p files :
  (∀ pf, files !! p = Some pf → NoteParser.parsedFileFor p files = (files, p))
  ∧ (files !! p = None →
       NoteParser.parsedFileFor p files = (<[p := ParsedFile.new p]> files, p))
  ∧ NoteParser.parsedFileFor p (NoteParser.parsedFileFor p files).1 =
      NoteParser.parsedFileFor p files
  ∧ (NoteParser.clearCacheFor p files).1 !! p = None
  ∧ (NoteParser.parsedFileFor p (NoteParser.clearCacheFor p files).1).1 !! p =
      Some (ParsedFile.new p)
  ∧ (∀ q, q ≠ p →
       (NoteParser.parsedFileFor p files).1 !! q = files !! q
       ∧ (NoteParser.clearCacheFor p files).1 !! q = files !! q).
Proof.
  split_and!.
  - intros pf Hp. rewrite parsedFileFor_run. unfold NoteParser.deref.
    rewrite Hp. simpl. by rewrite insert_id.
  - intros Hp. rewrite parsedFileFor_run. unfold NoteParser.deref. by rewrite Hp.
  - rewrite !parsedFileFor_run. simpl.
    by rewrite deref_insert, insert_insert_eq.
  - simpl. apply lookup_delete_eq.
  - rewrite parsedFileFor_run. simpl. rewrite lookup_insert_eq.
    unfold NoteParser.deref. by rewrite lookup_delete_eq.
  - intros q Hq. rewrite parsedFileFor_run. simpl.
    by rewrite lookup_insert_ne, lookup_delete_ne.
Qed.


(** X9: [hydrateCache] on a dictionary keyed by path, when every enumerated
    file can be read, resolves with the enumerated paths; the entry of each
    file whose text is not empty is the tokenization of that text, whatever
    the dictionary held for it; and entries of other paths stay. *)
Theorem hydrateCache_rebuilds w files :
  Index.keyed_by_path files →
  (∀ q, q ∈ noteFiles w → ∃ text, fs_readFile w q = inr text) →
  ∃ files',
    NoteParser.hydrateCache w files = (files', Js.Resolved (noteFiles w))
    ∧ (∀ q text,
         q ∈ noteFiles w → fs_readFile w q = inr text → text ≠ "" →
         files' !! q = Some (Index.tokenized q text))
    ∧ (∀ q, q ∉ noteFiles w → files' !! q = files !! q).
Proof.
  intros Hkey Hok. unfold NoteParser.hydrateCache.
  destruct (parsedFilesForWorkspace_resolves w false files)
    as (files' & Hrun & Hin & Hout).
  { intros q Hq. rewrite deref_fsPath by done. auto. }
  exists files'. split_and!; [done| |done].
  intros q text Hq Htext Hne. rewrite (Hin q Hq).
  rewrite (load_then_tokenize_reread _ _ text) by (by rewrite ?deref_fsPath).
  by rewrite deref_fsPath.
Qed.

(** X10: with [useCache] true a document that holds a non-empty text is not
    read again: when every enumerated path has such a document, loading the
    workspace resolves whatever the file system would answer (two worlds
    that enumerate the same files give the same dictionary and promise), and
    each of these documents is tokenized from the text it holds if its
    parsed flag was false, and left as it is otherwise. *)
Theorem cached_workspace_not_reread w w' files :
  noteFiles w = noteFiles w' →
  (∀ q, q ∈ noteFiles w →
     Js.truthy_string (ParsedFile.data (NoteParser.deref q files)) = true) →
  NoteParser.parsedFilesForWorkspace w true files =
    NoteParser.parsedFilesForWorkspace w' true files
  ∧ ∃ files',
      NoteParser.parsedFilesForWorkspace w true files =
        (files', Js.Resolved (noteFiles w))
      ∧ (∀ q, q ∈ noteFiles w →
           files' !! q =
             Some (ParsedFile.parseData true (NoteParser.deref q files)))
      ∧ (∀ q, q ∉ noteFiles w → files' !! q = files !! q).
Proof.
  intros Hsame Hcached.
  assert (∀ v, noteFiles v = noteFiles w →
            ∃ files',
              NoteParser.parsedFilesForWorkspace v true files =
                (files', Js.Resolved (noteFiles w))
              ∧ (∀ q, q ∈ noteFiles w →
                   files' !! q =
                     Some (ParsedFile.parseData true (NoteParser.deref q files)))
              ∧ (∀ q, q ∉ noteFiles w → files' !! q = files !! q)) as Hrun.
  { intros v Hv.
    destruct (NoteParser.parsedFilesForWorkspace v true files)
      as [files' r] eqn:Hrun.
    apply parsedFilesForWorkspace_run in Hrun as (-> & Hin & Hout).
    rewrite Hv in Hin, Hout |- *.
    destruct (Promise_all_resolved
                ((λ q, (Spec.load v true (NoteParser.deref q files)).2)
                   <$> noteFiles w)) as [l Hl].
    { intros r (q & -> & Hq)%list_elem_of_fmap. exists ().
      by rewrite load_cached by auto. }
    rewrite Hl in Hin |- *. exists files'. split_and!; [done| |done].
    intros q Hq. rewrite (Hin q Hq). unfold Spec.load_then_tokenize.
    by rewrite load_cached by auto. }
  destruct (Hrun w eq_refl) as (files1 & Hrun1 & Hin1 & Hout1).
  destruct (Hrun w' (eq_sym Hsame)) as (files2 & Hrun2 & Hin2 & Hout2).
  split; [|by exists files1].
  rewrite Hrun1, Hrun2. f_equal. apply map_eq. intros q.
  destruct (decide (q ∈ noteFiles w)).
  - by rewrite Hin1, Hin2.
  - by rewrite Hout1, Hout2.
Qed.

(** X11: [clearCacheFor] makes the engine forget a document: on a dictionary
    keyed by path, the next load of the workspace with [useCache] true, when
    every enumerated file can be read, reads an enumerated file that was
    cleared from the file system again and stores the tokenization of its
    text (if not empty), and a cleared file that is no longer enumerated has
    no entry. *)
Theorem clearCacheFor_forces_reread w p files :
  Index.keyed_by_path files →
  (∀ q, q ∈ noteFiles w → ∃ text, fs_readFile w q = inr text) →
  ∃ files',
    NoteParser.parsedFilesForWorkspace w true (NoteParser.clearCacheFor p files).1 =
      (files', Js.Resolved (noteFiles w))
    ∧ (∀ text, p ∈ noteFiles w → fs_readFile w p = inr text → text ≠ "" →
         files' !! p = Some (Index.tokenized p text))
    ∧ (p ∉ noteFiles w → files' !! p = None).
Proof.
  intros Hkey Hok. simpl.
  pose proof (keyed_by_path_delete p files Hkey) as Hkey'.
  destruct (parsedFilesForWorkspace_resolves w true (delete p files))
    as (files' & Hrun & Hin & Hout).
  { intros q Hq. rewrite deref_fsPath by done. auto. }
  exists files'. split_and!; [done| |].
  - intros text Hp Htext Hne. rewrite (Hin p Hp).
    unfold NoteParser.deref. rewrite lookup_delete_eq. simpl.
    by rewrite (load_then_tokenize_new w p text).
  - intros Hp. rewrite (Hout p Hp). apply lookup_delete_eq.
Qed.

End CacheFacts.

(** ** What a search returns *)

Section SearchResultFacts.
Context {K : Type} `{!ContextWordType.Enum K} `{!NoteWorkspace.Statics}.
Implicit Types (files : gmap string (ParsedFile.t K)) (pf : ParsedFile.t K).
Implicit Types (w : World) (q : string) (cw : ContextWord K).

Lemma foldl_push_fmap {A B} (f : A → B) (l : list A) (acc : list B) :
  foldl (λ acc a, acc ++ [f a]) acc l = acc ++ (f <$> l).
Proof.
  revert acc. induction l as [|a l IH]; intros acc; simpl.
  - by rewrite app_nil_r.
  - by rewrite IH, <-app_assoc.
Qed.

Lemma vscodeRangesForWord_hits pf cw :
  (λ r, {| vscode.uri := ParsedFile.fsPath pf; vscode.range := r |})
    <$> ParsedFile.vscodeRangesForWord pf (Some cw) =
  Index.hits pf cw.
Proof.
  unfold ParsedFile.vscodeRangesForWord, Index.hits.
  rewrite rawRangesForWord_filter.
  destruct (Js.truthy_string (ParsedFile.data pf)); [|done].
  induction (List.filter _ _) as [|c l IH]; [done|].
  simpl in *. by f_equal.
Qed.

Lemma load_rejected w useCache pf err :
  useCache && Js.truthy_string (ParsedFile.data pf) = false →
  fs_readFile w (ParsedFile.fsPath pf) = inl err →
  (Spec.load w useCache pf).2 = Js.Rejected err.
Proof.
  intros Hd Herr. unfold Spec.load, ParsedFile.readFile.
  rewrite readFile_call_uncached by done. simpl. by rewrite Herr.
Qed.

Lemma load_rejected_inv w useCache pf err :
  (Spec.load w useCache pf).2 = Js.Rejected err →
  fs_readFile w (ParsedFile.fsPath pf) = inl err.
Proof.
  unfold Spec.load, ParsedFile.readFile, ParsedFile.readFile_call.
  destruct (useCache && _); [done|]. simpl.
  destruct (fs_readFile w _); [|done]. simpl. by intros [= ->].
Qed.

Lemma load_refCandidates w useCache pf :
  ParsedFile.refCandidates (Spec.load w useCache pf).1 =
    ParsedFile.refCandidates pf.
Proof.
  unfold Spec.load, ParsedFile.readFile, ParsedFile.readFile_call.
  destruct (useCache && _); [done|]. simpl. by destruct (fs_readFile w _).
Qed.

Lemma foldl_locations files cw (pfs : list string) (acc : list vscode.Location) :
  foldl (λ locations ref,
           let pf := NoteParser.deref ref files in
           let ranges := ParsedFile.vscodeRangesForWord pf (Some cw) in
           foldl (λ locations r,
                    locations ++
                      [ {| vscode.uri := ParsedFile.fsPath pf;
                           vscode.range := r |} ])
             locations ranges)
    acc pfs =
  acc ++ concat ((λ q, Index.hits (NoteParser.deref q files) cw) <$> pfs).
Proof.
  revert acc. induction pfs as [|q pfs IH]; intros acc.
  - simpl. by rewrite app_nil_r.
  - change (foldl ?f acc (q :: pfs)) with (foldl f (f acc q) pfs).
    rewrite IH. cbv beta zeta.
    rewrite foldl_push_fmap, vscodeRangesForWord_hits, fmap_cons.
    by rewrite List.concat_cons, app_assoc.
Qed.

Lemma search_locations_run w cw files :
  NoteParser.search_locations w cw files =
    let '(files', r) := NoteParser.parsedFilesForWorkspace w true files in
    (files',
     match r with
     | Js.Rejected err => Js.Rejected err
     | Js.Resolved pfs =>
         Js.Resolved
           (concat ((λ q, Index.hits (NoteParser.deref q files') cw) <$> pfs))
     end).
Proof.
  unfold NoteParser.search_locations, mbind, NoteParser.M_bind.
  destruct (NoteParser.parsedFilesForWorkspace w true files) as [files' [pfs|err]];
    [|done].
  unfold NoteParser.get, mret, NoteParser.M_ret. do 2 f_equal.
  apply (foldl_locations files' cw pfs []).
Qed.

Lemma elem_of_hits pf cw loc :
  loc ∈ Index.hits pf cw ↔
    Js.truthy_string (ParsedFile.data pf) = true
    ∧ ∃ c, c ∈ ParsedFile.refCandidates pf
           ∧ RefCandidate.matchesContextWord c cw = true
           ∧ loc = Index.location_of pf c.
Proof.
  unfold Index.hits. destruct (Js.truthy_string (ParsedFile.data pf)).
  - rewrite list_elem_of_fmap. split.
    + intros (c & -> & [Hin Hm]%list_elem_of_In%filter_In). split; [done|].
      exists c. by rewrite list_elem_of_In.
    + intros (_ & c & Hin & Hm & ->). exists c. split; [done|].
      apply list_elem_of_In, filter_In. by rewrite <-list_elem_of_In.
  - split; [by intros ?%elem_of_nil|]. by intros [? _].
Qed.

Lemma Promise_all_rejected {E A} (ps : list (Js.Settled E A)) e0 :
  Js.Rejected e0 ∈ ps →
  ∃ e, NoteParser.Promise_all ps = Js.Rejected e ∧ Js.Rejected e ∈ ps.
Proof.
  induction ps as [|p ps IH]; [by intros ?%elem_of_nil|].
  intros Hin. destruct p as [a|e]; simpl.
  - apply elem_of_cons in Hin as [?|Hin]; [done|].
    destruct (IH Hin) as (e & -> & He). exists e. split; [done|by right].
  - exists e. split; [done|left].
Qed.

(** X12: the locations a search resolves with are the hits of the context
    word, as the search left it, in the enumerated documents: file after
    file in enumeration order, within a file in candidate order, a document
    without content giving none. *)
Theorem search_hits_by_file w cw files files' cw' locs :
  ContextWordType.toBoolean (ContextWordType.WikiLink : K) = true →
  NoteParser.search w cw files = (files', (cw', Js.Resolved locs)) →
  locs = concat ((λ q, Index.hits (NoteParser.deref q files') cw') <$> noteFiles w)
  ∧ ∀ loc,
      loc ∈ locs ↔
        ∃ q c,
          q ∈ noteFiles w
          ∧ Js.truthy_string (ParsedFile.data (NoteParser.deref q files')) = true
          ∧ c ∈ ParsedFile.refCandidates (NoteParser.deref q files')
          ∧ RefCandidate.matchesContextWord c cw' = true
          ∧ loc = Index.location_of (NoteParser.deref q files') c.
Proof.
  intros Htrue. rewrite search_always_loads by done. simpl.
  rewrite search_locations_run.
  destruct (NoteParser.parsedFilesForWorkspace w true files) as [files1 r] eqn:Hrun.
  apply parsedFilesForWorkspace_run in Hrun as (-> & _ & _).
  destruct (NoteParser.Promise_all _); [|done].
  intros [= <- <- <-]. split; [done|]. intros loc.
  rewrite elem_of_concat. split.
  - intros (l & Hloc & (q & -> & Hq)%list_elem_of_fmap).
    apply elem_of_hits in Hloc as (Hd & c & Hc & Hm & ->).
    by exists q, c.
  - intros (q & c & Hq & Hd & Hc & Hm & ->). eexists. split.
    + apply elem_of_hits. split; [done|]. by exists c.
    + apply list_elem_of_fmap. by exists q.
Qed.

(** X13: with Tag and WikiLink distinct members and WikiLink truthy, the
    backlinks of a note are exactly the locations of the WikiLink candidates,
    in enumerated documents with content, whose raw text the note-name
    comparison equates with the given name: no tag is ever a backlink. *)
Theorem searchBacklinksFor_only_wikilinks w name files files' locs loc :
  (ContextWordType.Tag : K) ≠ ContextWordType.WikiLink →
  ContextWordType.toBoolean (ContextWordType.WikiLink : K) = true →
  NoteParser.searchBacklinksFor w name files = (files', Js.Resolved locs) →
  loc ∈ locs ↔
    ∃ q c,
      q ∈ noteFiles w
      ∧ Js.truthy_string (ParsedFile.data (NoteParser.deref q files')) = true
      ∧ c ∈ ParsedFile.refCandidates (NoteParser.deref q files')
      ∧ RefCandidate.contextWordType c = ContextWordType.WikiLink
      ∧ NoteWorkspace.noteNamesFuzzyMatch (RefCandidate.rawText c) name = true
      ∧ loc = Index.location_of (NoteParser.deref q files') c.
Proof.
  intros Hne Htrue. unfold NoteParser.searchBacklinksFor, mbind, NoteParser.M_bind.
  set (cw := {| type := ContextWordType.WikiLink; word := name;
                hasExtension := true; cw_range := None |}).
  rewrite search_always_loads by done. simpl.
  rewrite bool_decide_eq_false_2 by (simpl; congruence).
  change (ContextWord_set_type ContextWordType.WikiLink cw) with cw.
  rewrite search_locations_run.
  destruct (NoteParser.parsedFilesForWorkspace w true files) as [files1 r] eqn:Hrun.
  apply parsedFilesForWorkspace_run in Hrun as (-> & _ & _).
  destruct (NoteParser.Promise_all _); [|done].
  intros [= <- <-]. rewrite elem_of_concat. split.
  - intros (l & Hloc & (q & -> & Hq)%list_elem_of_fmap).
    apply elem_of_hits in Hloc as (Hd & c & Hc & Hm & ->).
    apply matchesContextWord_true in Hm as (Hk & [[HTag _]|(_ & _ & Hf)]).
    + simpl in HTag. congruence.
    + by exists q, c.
  - intros (q & c & Hq & Hd & Hc & Hk & Hf & ->).
    exists (Index.hits (NoteParser.deref q files1) cw). split.
    + apply elem_of_hits. split; [done|]. exists c. split_and!; try done.
      apply matchesContextWord_true. split; [exact Hk|]. right.
      split_and!; [simpl; congruence|reflexivity|exact Hf].
    + apply list_elem_of_fmap. by exists q.
Qed.

(** X14: when the read of an enumerated file fails, loading the workspace is
    rejected with the error of such a read, no document is tokenized (every
    enumerated document keeps its candidates), and with it [distinctTags]
    and the matching part of [search] are rejected with that error. *)
Theorem read_failure_rejects_workspace w useCache files q err0 :
  q ∈ noteFiles w →
  useCache && Js.truthy_string (ParsedFile.data (NoteParser.deref q files)) = false →
  fs_readFile w (ParsedFile.fsPath (NoteParser.deref q files)) = inl err0 →
  ∃ files' err,
    NoteParser.parsedFilesForWorkspace w useCache files = (files', Js.Rejected err)
    ∧ (∃ q', q' ∈ noteFiles w
             ∧ fs_readFile w (ParsedFile.fsPath (NoteParser.deref q' files)) = inl err)
    ∧ (∀ q', q' ∈ noteFiles w →
         ∃ pf', files' !! q' = Some pf'
                ∧ ParsedFile.refCandidates pf' =
                    ParsedFile.refCandidates (NoteParser.deref q' files))
    ∧ (useCache = true →
         NoteParser.distinctTags w files = (files', Js.Rejected err)
         ∧ ∀ cw, NoteParser.search_locations w cw files = (files', Js.Rejected err)).
Proof.
  intros Hq Hd Herr.
  destruct (NoteParser.parsedFilesForWorkspace w useCache files)
    as [files' r] eqn:Hrun.
  pose proof Hrun as Hrun'.
  apply parsedFilesForWorkspace_run in Hrun as (-> & Hin & _).
  destruct (Promise_all_rejected
              ((λ q, (Spec.load w useCache (NoteParser.deref q files)).2)
                 <$> noteFiles w) err0) as (err & Hall & Hsome).
  { apply list_elem_of_fmap. exists q. split; [|done].
    by rewrite (load_rejected _ _ _ err0). }
  rewrite Hall in Hin, Hrun' |- *. exists files', err. split_and!; [done|..].
  - apply list_elem_of_fmap in Hsome as (q' & Hq' & Hin').
    exists q'. split; [done|]. symmetry in Hq'.
    by apply load_rejected_inv in Hq'.
  - intros q' Hq'. eexists. split; [by apply Hin|].
    apply load_refCandidates.
  - intros ->. split.
    + rewrite distinctTags_run. by rewrite Hrun'.
    + intros cw. rewrite search_locations_run. by rewrite Hrun'.
Qed.

End SearchResultFacts.

(** ** The further properties on the concrete configuration *)

Section FurtherScenarios.
Import Fixture.

Lemma keyed_by_path_empty : Index.keyed_by_path no_files.
Proof. intros q pf. unfold no_files. by rewrite lookup_empty. Qed.

Lemma keyed_by_path_indexed : Index.keyed_by_path indexed.
Proof.
  apply (parsedFilesForWorkspace_keyed tagged_world false no_files),
    keyed_by_path_empty.
Qed.

Lemma parseData_candidates_well_ranged_witness :
  ParsedFile.data tag_document = Some "#a"
  ∧ Forall (Index.well_ranged (length (Js.split_newlines "#a")))
      (ParsedFile.refCandidates (ParsedFile.parseData false tag_document))
  ∧ ∀ o,
      ParsedFile.vscodeRangesForWord (ParsedFile.parseData false tag_document) o =
        ParsedFile._rawRangesForWord (ParsedFile.parseData false tag_document) o.
Proof.
  split; [reflexivity|].
  apply (parseData_candidates_well_ranged false tag_document "#a");
    [reflexivity|discriminate|reflexivity].
Defined.

Lemma readFile_then_parseData_retokenizes_witness :
  ParsedFile._parsed blank_document = true
  ∧ ParsedFile.parseData true
      (ParsedFile.readFile tagged_world false blank_document).1 =
    Index.tokenized "/a.md" "#a".
Proof.
  split; [reflexivity|].
  apply (readFile_then_parseData_retokenizes tagged_world blank_document "#a");
    [reflexivity|discriminate].
Defined.

Lemma distinctTags_first_seen_order_witness :
  ["#a"; "#b"; "#c"] =
    Index.first_occurrences
      (concat ((λ q, ParsedFile.tagSet
                       (NoteParser.deref q
                          (NoteParser.distinctTags two_notes no_files).1))
                 <$> noteFiles two_notes)).
Proof.
  apply (proj2 (distinctTags_first_seen_order (K:=Kind)) two_notes no_files).
  by vm_compute.
Defined.

Lemma tagSet_of_tokenized_witness :
  ParsedFile.tagSet (Index.tokenized (K:=Kind) "/a.md" "#a #a #b") =
    Index.first_occurrences
      (concat ((λ ln, Js.matched <$> Js.matchAll ln NoteWorkspace.rxTagNoAnchors)
                 <$> Js.split_newlines "#a #a #b")).
Proof. apply (tagSet_of_tokenized (K:=Kind) "/a.md" "#a #a #b"). discriminate. Defined.

Lemma keyed_by_path_preserved_witness :
  indexed !! "/a.md" = Some indexed_document
  ∧ Index.keyed_by_path indexed
  ∧ Index.keyed_by_path (NoteParser.parsedFileFor "/b.md" indexed).1
  ∧ Index.keyed_by_path (NoteParser.parsedFilesForWorkspace two_notes false indexed).1
  ∧ Index.keyed_by_path (NoteParser.hydrateCache two_notes indexed).1
  ∧ Index.keyed_by_path (NoteParser.updateCacheFor two_notes "/b.md" indexed).1
  ∧ Index.keyed_by_path (NoteParser.clearCacheFor "/b.md" indexed).1
  ∧ Index.keyed_by_path (NoteParser.distinctTags two_notes indexed).1
  ∧ Index.keyed_by_path (NoteParser.search two_notes (query Tag "b") indexed).1
  ∧ Index.keyed_by_path (NoteParser.searchBacklinksFor two_notes "/b.md" indexed).1
  ∧ (NoteParser.parsedFilesForWorkspace two_notes false indexed).1 !! "/a.md" =
      Some (Index.tokenized "/a.md" "#a #a #b")
  ∧ (NoteParser.parsedFilesForWorkspace two_notes false indexed).1 !! "/b.md" =
      Some (Index.tokenized "/b.md" "#b #c").
Proof.
  split; [reflexivity|]. split; [exact keyed_by_path_indexed|].
  pose proof (keyed_by_path_preserved two_notes false "/b.md" (query Tag "b")
                indexed keyed_by_path_indexed) as Hkept.
  split_and!; [apply Hkept..|by vm_compute|by vm_compute].
Defined.

Lemma parsedFileFor_gets_or_creates_witness :
  NoteParser.parsedFileFor "/a.md" indexed = (indexed, "/a.md")
  ∧ NoteParser.parsedFileFor "/b.md" indexed =
      (<["/b.md" := ParsedFile.new "/b.md"]> indexed, "/b.md").
Proof.
  destruct (parsedFileFor_gets_or_creates "/a.md" indexed) as (Hget & _).
  destruct (parsedFileFor_gets_or_creates "/b.md" indexed) as (_ & Hnew & _).
  split; [eapply Hget; reflexivity|apply Hnew; reflexivity].
Defined.


Lemma hydrateCache_rebuilds_witness :
  ∃ files',
    NoteParser.hydrateCache tagged_world indexed =
      (files', Js.Resolved (noteFiles tagged_world))
    ∧ (∀ q text,
         q ∈ noteFiles tagged_world → fs_readFile tagged_world q = inr text →
         text ≠ "" → files' !! q = Some (Index.tokenized q text))
    ∧ (∀ q, q ∉ noteFiles tagged_world → files' !! q = indexed !! q).
Proof.
  apply (hydrateCache_rebuilds tagged_world indexed keyed_by_path_indexed).
  intros q ->%list_elem_of_singleton. exists "#a". reflexivity.
Defined.

Lemma cached_workspace_not_reread_witness :
  NoteParser.parsedFilesForWorkspace tagged_world true indexed =
    NoteParser.parsedFilesForWorkspace emptied_world true indexed
  ∧ ∃ files',
      NoteParser.parsedFilesForWorkspace tagged_world true indexed =
        (files', Js.Resolved (noteFiles tagged_world))
      ∧ (∀ q, q ∈ noteFiles tagged_world →
           files' !! q =
             Some (ParsedFile.parseData true (NoteParser.deref q indexed)))
      ∧ (∀ q, q ∉ noteFiles tagged_world → files' !! q = indexed !! q).
Proof.
  apply (cached_workspace_not_reread tagged_world emptied_world indexed);
    [reflexivity|].
  intros q ->%list_elem_of_singleton. reflexivity.
Defined.

Lemma clearCacheFor_forces_reread_witness :
  ∃ files',
    NoteParser.parsedFilesForWorkspace tagged_world true
      (NoteParser.clearCacheFor "/a.md" reindexed).1 =
      (files', Js.Resolved (noteFiles tagged_world))
    ∧ (∀ text, "/a.md" ∈ noteFiles tagged_world →
         fs_readFile tagged_world "/a.md" = inr text → text ≠ "" →
         files' !! "/a.md" = Some (Index.tokenized "/a.md" text))
    ∧ ("/a.md" ∉ noteFiles tagged_world → files' !! "/a.md" = None).
Proof.
  apply (clearCacheFor_forces_reread tagged_world "/a.md" reindexed).
  - apply (updateCacheFor_keyed emptied_world "/a.md" indexed),
      keyed_by_path_indexed.
  - intros q ->%list_elem_of_singleton. exists "#a". reflexivity.
Defined.

Lemma search_hits_by_file_witness :
  (NoteParser.search linking_world (query Null "b") no_files).2.2 =
    Js.Resolved
      (concat ((λ q, Index.hits
                       (NoteParser.deref q
                          (NoteParser.search linking_world (query Null "b")
                             no_files).1)
                       (query WikiLink "b"))
                 <$> noteFiles linking_world)).
Proof.
  destruct (NoteParser.search linking_world (query Null "b") no_files)
    as [files' [cw' [locs|err]]] eqn:Hrun; [|by vm_compute in Hrun].
  assert (cw' = query WikiLink "b") as ->.
  { vm_compute in Hrun. by injection Hrun as _ <- _. }
  simpl. f_equal.
  apply (search_hits_by_file linking_world (query Null "b") no_files
           files' (query WikiLink "b") locs); [reflexivity|exact Hrun].
Defined.

Lemma searchBacklinksFor_only_wikilinks_witness :
  ∃ q c,
    q ∈ noteFiles linking_world
    ∧ Js.truthy_string
        (ParsedFile.data
           (NoteParser.deref q
              (NoteParser.searchBacklinksFor linking_world "b" no_files).1)) = true
    ∧ c ∈ ParsedFile.refCandidates
            (NoteParser.deref q
               (NoteParser.searchBacklinksFor linking_world "b" no_files).1)
    ∧ RefCandidate.contextWordType c = ContextWordType.WikiLink
    ∧ NoteWorkspace.noteNamesFuzzyMatch (RefCandidate.rawText c) "b" = true
    ∧ {| vscode.uri := "/a.md";
         vscode.range :=
           {| r_start := {| line := 0; character := 4 |};
              r_end := {| line := 0; character := 9 |} |} |} =
      Index.location_of
        (NoteParser.deref q
           (NoteParser.searchBacklinksFor linking_world "b" no_files).1) c.
Proof.
  eapply (searchBacklinksFor_only_wikilinks linking_world "b" no_files);
    [discriminate|reflexivity|by vm_compute|left].
Defined.

Lemma read_failure_rejects_workspace_witness :
  ∃ files' err,
    NoteParser.parsedFilesForWorkspace broken_world true indexed =
      (files', Js.Rejected err)
    ∧ (∃ q', q' ∈ noteFiles broken_world
             ∧ fs_readFile broken_world
                 (ParsedFile.fsPath (NoteParser.deref q' indexed)) = inl err)
    ∧ (∀ q', q' ∈ noteFiles broken_world →
         ∃ pf', files' !! q' = Some pf'
                ∧ ParsedFile.refCandidates pf' =
                    ParsedFile.refCandidates (NoteParser.deref q' indexed))
    ∧ (true = true →
         NoteParser.distinctTags broken_world indexed = (files', Js.Rejected err)
         ∧ ∀ cw, NoteParser.search_locations broken_world cw indexed =
                   (files', Js.Rejected err)).
Proof.
  apply (read_failure_rejects_workspace broken_world true indexed "/gone.md" ENOENT).
  - right. left.
  - reflexivity.
  - reflexivity.
Defined.

End FurtherScenarios.
